(** * A reactive atom store: dependency tracking and propagation

    Shallow embedding of [src/lib/atoms.ts] and [src/lib/useAtom.ts]:
    the atom constructor, the tracked accessor [get], the evaluator
    [getAtomValue], the propagation functions [updateAtom],
    [updatePrimitiveAtom], [updateReadonlyDerivedAtom], and the
    [subscribe] / [getSnapshot] / [setValue] closures built by [useAtom].

    Modelling conventions.
    - An atom is a JavaScript object compared by reference.  A reference is
      an [atom_id]; the objects live in the [atoms] table of the store.
    - The four module-level variables ([atomPrimitiveValues],
      [currentlyComputingAtom], [subscriptions], [dependencies]) are the
      fields of one [store] record that every operation threads.
    - A JavaScript [Set] iterates in insertion order: it is a duplicate-free
      list, [set_add] appending at the end.
    - A read function [(get) => ...] is a tree of [get] calls ([ReadFn]); a
      write function [(get, set, newValue) => ...] is a tree of [get] and
      [set] calls ([WriteFn]).
    - A subscription callback [() => void] belongs to the binding layer.  It
      is known by its identity only and does not call back into the store;
      calling it appends the pair (atom it was registered for, callback) to
      the [notified] log.  As no callback changes a set while it is walked,
      [forEach] runs over the elements the set has when the walk starts.
    - A reference that is in no entry of [atoms] stands for a value that
      is not an atom object ([undefined]): reading its [type] raises
      [TypeError].
    - Recursion that JavaScript does not bound (a read function that reads
      its own atom, a cyclic dependency graph) is bounded by a fuel
      argument; exhausting it is the outcome [OutOfFuel]. *)

From stdpp Require Import gmap list strings.
From Stdlib Require Import ZArith.

Local Open Scope Z_scope.

(** ** Values, errors, atoms *)

Abbreviation atom_id := positive (only parsing).
Abbreviation callback := positive (only parsing).

(** [AnyValue = unknown]; the fragment of the [Primitive] union used here.
    JavaScript numbers are represented by integers. *)
Inductive value : Type :=
| VUndefined
| VNull
| VBool (b : bool)
| VNum (n : Z)
| VStr (s : string).

Inductive exn : Type :=
| Error (message : string)
| TypeError.

(** [ReadFn<TValue> = (get: Get) => TValue] *)
Inductive ReadFn : Type :=
| RReturn (v : value)
| RGet (a : atom_id) (k : value -> ReadFn)
| RThrow (e : exn).

(** Body of a [WriteFn] once [newValue] is supplied. *)
Inductive WriteBody : Type :=
| WReturn
| WGet (a : atom_id) (k : value -> WriteBody)
| WSet (a : atom_id) (v : value) (k : WriteBody)
| WThrow (e : exn).

(** [WriteFn<TValue> = (get: Get, set: Set, newValue: TValue) => void] *)
Definition WriteFn : Type := value -> WriteBody.

(** [Atom<TValue> = PrimitiveAtom<TValue> | DerivedAtom<TValue>] *)
Inductive Atom : Type :=
| PrimitiveAtom (brand : value)
| DerivedAtom (read : ReadFn) (write : option WriteFn).

Definition is_primitive (o : option Atom) : bool :=
  match o with Some (PrimitiveAtom _) => true | _ => false end.

Definition is_derived (o : option Atom) : bool :=
  match o with Some (DerivedAtom _ _) => true | _ => false end.

(** ** The store *)

Record store : Type := Store {
  atoms : gmap positive Atom;
  atomPrimitiveValues : gmap positive value;
  currentlyComputingAtom : option atom_id;
  subscriptions : gmap positive (list callback);
  dependencies : gmap positive (list atom_id);
  notified : list (atom_id * callback)
}.

Definition empty_store : store :=
  Store ∅ ∅ None ∅ ∅ [].

Definition with_atoms (h : gmap positive Atom) (s : store) : store :=
  Store h (atomPrimitiveValues s) (currentlyComputingAtom s)
        (subscriptions s) (dependencies s) (notified s).

Definition with_values (m : gmap positive value) (s : store) : store :=
  Store (atoms s) m (currentlyComputingAtom s)
        (subscriptions s) (dependencies s) (notified s).

Definition with_computing (c : option atom_id) (s : store) : store :=
  Store (atoms s) (atomPrimitiveValues s) c
        (subscriptions s) (dependencies s) (notified s).

Definition with_subscriptions (m : gmap positive (list callback)) (s : store) : store :=
  Store (atoms s) (atomPrimitiveValues s) (currentlyComputingAtom s)
        m (dependencies s) (notified s).

Definition with_dependencies (m : gmap positive (list atom_id)) (s : store) : store :=
  Store (atoms s) (atomPrimitiveValues s) (currentlyComputingAtom s)
        (subscriptions s) m (notified s).

Definition with_notified (l : list (atom_id * callback)) (s : store) : store :=
  Store (atoms s) (atomPrimitiveValues s) (currentlyComputingAtom s)
        (subscriptions s) (dependencies s) l.

(** [Set.prototype.add] and [Set.prototype.delete] on an insertion-ordered set. *)
Definition set_add (x : positive) (l : list positive) : list positive :=
  if decide (x ∈ l) then l else l ++ [x].

Definition set_delete (x : positive) (l : list positive) : list positive :=
  filter (λ y, y ≠ x) l.

(** [c] is recorded as a dependent of [a]: the edge [a → c]. *)
Definition has_edge (s : store) (a c : atom_id) : Prop :=
  ∃ ds, dependencies s !! a = Some ds ∧ c ∈ ds.

(** ** Computations: state, exceptions, fuel *)

Inductive outcome (A : Type) : Type :=
| Returned (a : A)
| Thrown (e : exn)
| OutOfFuel.
Arguments Returned {A} a.
Arguments Thrown {A} e.
Arguments OutOfFuel {A}.

Definition M (A : Type) : Type := store -> outcome A * store.

Definition ret {A} (a : A) : M A := λ s, (Returned a, s).
Definition throw {A} (e : exn) : M A := λ s, (Thrown e, s).
Definition out_of_fuel {A} : M A := λ s, (OutOfFuel, s).

Definition bind {A B} (m : M A) (f : A -> M B) : M B :=
  λ s, match m s with
       | (Returned a, s') => f a s'
       | (Thrown e, s') => (Thrown e, s')
       | (OutOfFuel, s') => (OutOfFuel, s')
       end.

Notation "'let*' x ':=' m 'in' k" := (bind m (λ x, k))
  (at level 10, x name, m at level 100, k at level 200).
Notation "m >> k" := (bind m (λ _, k))
  (at level 100, k at level 200, right associativity).

(** [try { m } finally { cleanup }] *)
Definition finally {A} (m : M A) (cleanup : store -> store) : M A :=
  λ s, let '(r, s') := m s in (r, cleanup s').

(** [xs.forEach(f)]; an exception leaves the loop. *)
Fixpoint forEach {A} (f : A -> M unit) (xs : list A) : M unit :=
  match xs with
  | [] => ret tt
  | x :: xs' => f x >> forEach f xs'
  end.

(** ** atoms.ts *)

(** [atom(configOrRead, write?)]: a function argument builds a derived atom,
    anything else a primitive atom whose value is stored at once. *)
Definition atom (configOrRead : value + ReadFn) (write : option WriteFn)
    (s : store) : atom_id * store :=
  let r := fresh (dom (atoms s)) in
  match configOrRead with
  | inr read => (r, with_atoms (<[r := DerivedAtom read write]> (atoms s)) s)
  | inl config =>
      (r, with_values (<[r := config]> (atomPrimitiveValues s))
            (with_atoms (<[r := PrimitiveAtom config]> (atoms s)) s))
  end.

(** ** useAtom.ts: the read path *)

(** Lines 40-48 of [get]: under a computing atom [c], add [c] to the
    dependents of [a], creating the set when absent. *)
Definition track (a : atom_id) (s : store) : store :=
  match currentlyComputingAtom s with
  | Some c =>
      with_dependencies
        (<[a := set_add c (default [] (dependencies s !! a))]> (dependencies s)) s
  | None => s
  end.

(** [atom.read(get)] for a given accessor. *)
Fixpoint run_read (get : atom_id -> M value) (read : ReadFn) : M value :=
  match read with
  | RReturn v => ret v
  | RGet a k => let* v := get a in run_read get (k v)
  | RThrow e => throw e
  end.

Fixpoint getAtomValue (fuel : nat) (a : atom_id) : M value :=
  match fuel with
  | O => out_of_fuel
  | S n => λ s,
      match atoms s !! a with
      | None => throw TypeError s
      | Some (PrimitiveAtom _) =>
          ret (default VUndefined (atomPrimitiveValues s !! a)) s
      | Some (DerivedAtom read _) =>
          let prevComputingAtom := currentlyComputingAtom s in
          finally (run_read (λ b s', getAtomValue n b (track b s')) read)
                  (with_computing prevComputingAtom)
                  (with_computing (Some a) s)
      end
  end.

Definition get (fuel : nat) (a : atom_id) : M value :=
  λ s, getAtomValue fuel a (track a s).

(** ** useAtom.ts: the write path *)

(** The calls made by
    [subscriptions.get(atom)?.forEach((subscription) => subscription())]
    in store [s], in the order of the set; none when the atom has no entry. *)
Definition calls_of (s : store) (a : atom_id) : list (atom_id * callback) :=
  map (pair a) (default [] (subscriptions s !! a)).

Definition notify (a : atom_id) : M unit :=
  λ s, (Returned tt, with_notified (notified s ++ calls_of s a) s).

(** Lines 98-105 and 115-121: walk the dependents, if any. *)
Definition forDependents (a : atom_id) (f : atom_id -> M unit) : M unit :=
  λ s, match dependencies s !! a with
       | None => ret tt s
       | Some dependentAtoms => forEach f dependentAtoms s
       end.

Fixpoint updateReadonlyDerivedAtom (fuel : nat) (a : atom_id) : M unit :=
  match fuel with
  | O => out_of_fuel
  | S n =>
      notify a >>
      forDependents a (updateReadonlyDerivedAtom n)
  end.

Definition updatePrimitiveAtom (fuel : nat) (a : atom_id) (newValue : value) : M unit :=
  (λ s, ret tt (with_values (<[a := newValue]> (atomPrimitiveValues s)) s)) >>
  notify a >>
  forDependents a (updateReadonlyDerivedAtom fuel).

Definition updateAtom (fuel : nat) (a : atom_id) (newValue : value) : M unit :=
  λ s, match atoms s !! a with
       | None => throw TypeError s
       | Some (PrimitiveAtom _) => updatePrimitiveAtom fuel a newValue s
       | Some (DerivedAtom _ _) => updateReadonlyDerivedAtom fuel a s
       end.

(** [atom.write(get, set, newValue)] for a given accessor and setter. *)
Fixpoint run_write (get : atom_id -> M value) (set : atom_id -> value -> M unit)
    (body : WriteBody) : M unit :=
  match body with
  | WReturn => ret tt
  | WGet a k => let* v := get a in run_write get set (k v)
  | WSet a v k => set a v >> run_write get set k
  | WThrow e => throw e
  end.

(** ** useAtom.ts: the closures handed to the binding layer *)

Definition subscribe (a : atom_id) (cb : callback) (s : store) : store :=
  with_subscriptions
    (<[a := set_add cb (default [] (subscriptions s !! a))]> (subscriptions s)) s.

(** The cleanup function returned by [subscribe]. *)
Definition unsubscribe (a : atom_id) (cb : callback) (s : store) : store :=
  match subscriptions s !! a with
  | Some cbs => with_subscriptions (<[a := set_delete cb cbs]> (subscriptions s)) s
  | None => s
  end.

Definition getSnapshot (fuel : nat) (a : atom_id) : M value :=
  getAtomValue fuel a.

(** [nextValue: TValue | SetValueFn<TValue>] *)
Inductive NextValue : Type :=
| Plain (v : value)
| Updater (fn : value -> value).

Definition read_only_error : exn := Error "Cannot set read-only derived atom".

Definition setValue (fuel : nat) (a : atom_id) (nextValue : NextValue) : M unit :=
  let* newValue :=
    match nextValue with
    | Updater fn => let* prev := getAtomValue fuel a in ret (fn prev)
    | Plain v => ret v
    end in
  λ s, match atoms s !! a with
       | None => throw TypeError s
       | Some (DerivedAtom _ (Some write)) =>
           run_write (get fuel) (updateAtom fuel) (write newValue) s
       | Some (PrimitiveAtom _) => updateAtom fuel a newValue s
       | Some (DerivedAtom _ None) => throw read_only_error s
       end.

(** * Specification vocabulary *)

(** ** Relations between the store before and after a computation *)

Definition preserves {A} (R : relation store) (m : M A) : Prop :=
  ∀ s, R s (m s).2.

(** What a read never touches. *)
Definition read_frame (s s' : store) : Prop :=
  atoms s' = atoms s ∧
  atomPrimitiveValues s' = atomPrimitiveValues s ∧
  subscriptions s' = subscriptions s ∧
  notified s' = notified s.

(** Edges are added, never removed. *)
Definition edges_grow (s s' : store) : Prop :=
  ∀ x y, has_edge s x y → has_edge s' x y.

(** One tracked step: the atom table and the computing atom are kept, and a
    new edge leads to a derived atom or to the atom under computation. *)
Definition tracked_step (s s' : store) : Prop :=
  atoms s' = atoms s ∧
  currentlyComputingAtom s' = currentlyComputingAtom s ∧
  ∀ x y, has_edge s' x y →
    has_edge s x y ∨ is_derived (atoms s !! y) = true
    ∨ currentlyComputingAtom s = Some y.

(** Propagation only appends to the notification log. *)
Definition only_notified (s s' : store) : Prop :=
  atoms s' = atoms s ∧
  atomPrimitiveValues s' = atomPrimitiveValues s ∧
  currentlyComputingAtom s' = currentlyComputingAtom s ∧
  subscriptions s' = subscriptions s ∧
  dependencies s' = dependencies s ∧
  notified s `prefix_of` notified s'.

(** A write changes neither the atom table, the computing atom, the
    subscriptions nor the dependency graph. *)
Definition write_frame (s s' : store) : Prop :=
  atoms s' = atoms s ∧
  currentlyComputingAtom s' = currentlyComputingAtom s ∧
  subscriptions s' = subscriptions s ∧
  dependencies s' = dependencies s.

(** Two stores a read cannot tell apart: a read looks at the atom table,
    the values and the computing atom only. *)
Definition same_inputs (u t : store) : Prop :=
  atoms t = atoms u ∧
  atomPrimitiveValues t = atomPrimitiveValues u ∧
  currentlyComputingAtom t = currentlyComputingAtom u.

(** ** Properties of one computation *)

(** The computation runs the same under any atom table, which it hands
    back untouched: it consults no atom object. *)
Definition heap_blind {A} (m : M A) : Prop :=
  ∀ h s, m (with_atoms h s) = let '(o, s') := m s in (o, with_atoms h s').

Definition no_throw {A} (m : M A) : Prop :=
  ∀ s e, (m s).1 ≠ Thrown e.

(** At every [get] issued by [read], and when it ends, the computing atom
    is [c]. *)
Fixpoint computing_throughout (g : atom_id -> M value) (c : atom_id)
    (read : ReadFn) (s : store) : Prop :=
  currentlyComputingAtom s = Some c ∧
  match read with
  | RGet b k =>
      ∀ v s', g b s = (Returned v, s') → computing_throughout g c (k v) s'
  | _ => True
  end.

Definition outcome_map {A B} (f : A -> B) (o : outcome A) : outcome B :=
  match o with
  | Returned a => Returned (f a)
  | Thrown e => Thrown e
  | OutOfFuel => OutOfFuel
  end.

(** ** Notifications *)

(** How many times callback [cb], registered for atom [a], was called
    between two stores. *)
Definition times_notified (a : atom_id) (cb : callback) (before after : store) : nat :=
  length (filter (λ e, e = (a, cb))
                 (drop (length (notified before)) (notified after))).

(** ** Reachable stores *)

(** The stores the program can be in between two calls from outside: atoms
    are constructed, read (snapshot or tracked), written, subscribed to and
    unsubscribed from, in any order, with any fuel. *)
Inductive reachable : store -> Prop :=
| reach_empty : reachable empty_store
| reach_atom s configOrRead write :
    reachable s → reachable (atom configOrRead write s).2
| reach_getSnapshot s fuel a :
    reachable s → reachable (getSnapshot fuel a s).2
| reach_get s fuel a :
    reachable s → reachable (get fuel a s).2
| reach_setValue s fuel a nextValue :
    reachable s → reachable (setValue fuel a nextValue s).2
| reach_subscribe s a cb :
    reachable s → reachable (subscribe a cb s)
| reach_unsubscribe s a cb :
    reachable s → reachable (unsubscribe a cb s).

Definition dependents_derived (s : store) : Prop :=
  ∀ a d, has_edge s a d → is_derived (atoms s !! d) = true.

(** ** Subscribers, new calls, single operations *)

(** The callbacks registered for [a]: the set of [subscriptions.get(a)],
    empty when the map has no entry. *)
Definition subscribers (s : store) (a : atom_id) : list callback :=
  default [] (subscriptions s !! a).

(** The calls logged between two stores. *)
Definition new_calls (before after : store) : list (atom_id * callback) :=
  drop (length (notified before)) (notified after).

(** The subscriptions are kept and every call added to the log goes to a
    callback registered for the atom it is made for. *)
Definition calls_registered (s s' : store) : Prop :=
  subscriptions s' = subscriptions s ∧
  ∃ l, notified s' = notified s ++ l ∧
       ∀ x c, (x, c) ∈ l → c ∈ subscribers s x.

(** The atom table is kept and a value-store entry changes only under the
    key of a primitive atom, where it then exists. *)
Definition values_step (s s' : store) : Prop :=
  atoms s' = atoms s ∧
  ∀ a, atomPrimitiveValues s' !! a = atomPrimitiveValues s !! a
       ∨ (is_primitive (atoms s !! a) = true
          ∧ is_Some (atomPrimitiveValues s' !! a)).

(** Every call of [l] is for an atom that one of [roots] reaches by the
    edges of [s]. *)
Definition calls_from (s : store) (roots : list atom_id)
    (l : list (atom_id * callback)) : Prop :=
  ∀ x c, (x, c) ∈ l → ∃ y, y ∈ roots ∧ rtc (has_edge s) y x.

(** The atoms that [read] gets, in order, when it runs from [s] with the
    accessor [g]: the run stops at the first [get] that does not return. *)
Fixpoint direct_reads (g : atom_id -> M value) (read : ReadFn) (s : store)
    : list atom_id :=
  match read with
  | RGet b k =>
      b :: match g b s with
           | (Returned v, s') => direct_reads g (k v) s'
           | _ => []
           end
  | _ => []
  end.

(** The calls of recompute-and-notify as the specification words it: the
    callbacks registered for the cell, then, for each cell that depends on
    it in turn, the same. *)
Fixpoint propagation_calls (fuel : nat) (s : store) (d : atom_id)
    : list (atom_id * callback) :=
  match fuel with
  | O => []
  | S n =>
      calls_of s d
      ++ flat_map (propagation_calls n s) (default [] (dependencies s !! d))
  end.

(** One call from outside. *)
Inductive step : store -> store -> Prop :=
| step_atom s configOrRead write : step s (atom configOrRead write s).2
| step_getSnapshot s fuel a : step s (getSnapshot fuel a s).2
| step_get s fuel a : step s (get fuel a s).2
| step_setValue s fuel a nextValue : step s (setValue fuel a nextValue s).2
| step_subscribe s a cb : step s (subscribe a cb s)
| step_unsubscribe s a cb : step s (unsubscribe a cb s).

(** [(get, set, newValue) => set(target, transform(get(target), newValue))] *)
Definition through (target : atom_id) (transform : value -> value -> value)
    : WriteFn :=
  λ newValue,
    WGet target (λ current, WSet target (transform current newValue) WReturn).

(** * Example atoms and stores *)

(** [get(a) * k] and [a + b]; only numbers occur in the examples. *)
Definition times (k : Z) (v : value) : value :=
  match v with VNum n => VNum (n * k) | _ => VUndefined end.

Definition plus (v w : value) : value :=
  match v, w with VNum n, VNum m => VNum (n + m) | _, _ => VUndefined end.

(** JavaScript truthiness of a condition. *)
Definition truthy (v : value) : bool :=
  match v with
  | VUndefined | VNull | VBool false => false
  | VNum n => negb (n =? 0)%Z
  | VStr s => negb (String.eqb s EmptyString)
  | VBool true => true
  end.

(** [(get) => f(get(source))] *)
Definition mapped (source : atom_id) (f : value -> value) : ReadFn :=
  RGet source (λ v, RReturn (f v)).

(** ** The atoms of [App.tsx]

    [countAtom = atom(0)],
    [doubledAtom = atom((get) => get(countAtom) * 2)],
    [tripledAtom = atom((get) => get(doubledAtom) * 3)] (the factor 1.5 of
    the source replaced by an integer),
    [countAtom3WithWrite = atom((get) => get(countAtom) * 2,
       (get, set, newValue) => set(countAtom, get(countAtom) + newValue))]. *)
Definition countAtom : atom_id := 1%positive.
Definition doubledAtom : atom_id := 2%positive.
Definition tripledAtom : atom_id := 3%positive.
Definition countAtom3WithWrite : atom_id := 4%positive.

Definition countAtom3_write : WriteFn :=
  λ newValue,
    WGet countAtom (λ currentCount,
      WSet countAtom (plus currentCount newValue) WReturn).

Definition app_store : store :=
  let s1 := (atom (inl (VNum 0)) None empty_store).2 in
  let s2 := (atom (inr (mapped countAtom (times 2))) None s1).2 in
  let s3 := (atom (inr (mapped doubledAtom (times 3))) None s2).2 in
  (atom (inr (mapped countAtom (times 2))) (Some countAtom3_write) s3).2.

(** [tripledAtom], and so [doubledAtom] beneath it, has been rendered. *)
Definition app_rendered : store :=
  (getSnapshot 3 tripledAtom app_store).2.

(** ** A failing read

    [brokenAtom = atom(() => { throw new Error("boom") })], read by
    [userAtom = atom((get) => get(brokenAtom))]. *)
Definition brokenAtom : atom_id := 1%positive.
Definition userAtom : atom_id := 2%positive.

Definition broken_store : store :=
  let s1 := (atom (inr (RThrow (Error "boom"))) None empty_store).2 in
  (atom (inr (mapped brokenAtom id)) None s1).2.

(** ** Write functions that write to derived atoms

    [sourceAtom = atom(0)],
    [readOnlyAtom = atom((get) => get(sourceAtom) * 2)],
    [viaReadOnly = atom((get) => get(readOnlyAtom),
                        (get, set, v) => set(readOnlyAtom, v))],
    [writableAtom = atom((get) => get(sourceAtom),
                         (get, set, v) => set(sourceAtom, v))],
    [viaWritable = atom((get) => get(writableAtom),
                        (get, set, v) => set(writableAtom, v))]. *)
Definition sourceAtom : atom_id := 1%positive.
Definition readOnlyAtom : atom_id := 2%positive.
Definition viaReadOnly : atom_id := 3%positive.
Definition writableAtom : atom_id := 4%positive.
Definition viaWritable : atom_id := 5%positive.

Definition handler_store : store :=
  let s1 := (atom (inl (VNum 0)) None empty_store).2 in
  let s2 := (atom (inr (mapped sourceAtom (times 2))) None s1).2 in
  let s3 := (atom (inr (mapped readOnlyAtom id))
                  (Some (λ v, WSet readOnlyAtom v WReturn)) s2).2 in
  let s4 := (atom (inr (mapped sourceAtom id))
                  (Some (λ v, WSet sourceAtom v WReturn)) s3).2 in
  (atom (inr (mapped writableAtom id))
        (Some (λ v, WSet writableAtom v WReturn)) s4).2.

(** ** A conditional read

    [flagAtom = atom(false)], [leftAtom = atom(1)], [rightAtom = atom(2)],
    [choiceAtom = atom((get) => get(flagAtom) ? get(leftAtom) : get(rightAtom))]. *)
Definition flagAtom : atom_id := 1%positive.
Definition leftAtom : atom_id := 2%positive.
Definition rightAtom : atom_id := 3%positive.
Definition choiceAtom : atom_id := 4%positive.

Definition choice_store : store :=
  let s1 := (atom (inl (VBool false)) None empty_store).2 in
  let s2 := (atom (inl (VNum 1)) None s1).2 in
  let s3 := (atom (inl (VNum 2)) None s2).2 in
  (atom (inr (RGet flagAtom (λ c, if truthy c then RGet leftAtom RReturn
                                  else RGet rightAtom RReturn))) None s3).2.

(** [choiceAtom] has been rendered once (its snapshot taken), then
    [flagAtom] was set to [true]. *)
Definition choice_flipped : store :=
  (setValue 3 flagAtom (Plain (VBool true))
     (getSnapshot 3 choiceAtom choice_store).2).2.

(** ** A diamond

    [baseAtom = atom(0)], [leftPath = atom((get) => get(baseAtom) * 2)],
    [rightPath = atom((get) => get(baseAtom) * 3)],
    [joinedAtom = atom((get) => get(leftPath) + get(rightPath))];
    [joinedAtom] has been rendered once and has two subscribers. *)
Definition baseAtom : atom_id := 1%positive.
Definition leftPath : atom_id := 2%positive.
Definition rightPath : atom_id := 3%positive.
Definition joinedAtom : atom_id := 4%positive.

Definition diamond_store : store :=
  let s1 := (atom (inl (VNum 0)) None empty_store).2 in
  let s2 := (atom (inr (mapped baseAtom (times 2))) None s1).2 in
  let s3 := (atom (inr (mapped baseAtom (times 3))) None s2).2 in
  let s4 := (atom (inr (RGet leftPath (λ x,
                          RGet rightPath (λ y, RReturn (plus x y)))))
                  None s3).2 in
  subscribe joinedAtom 8%positive
    (subscribe joinedAtom 7%positive (getSnapshot 3 joinedAtom s4).2).

(** ** Two components on [countAtom]

    Both derived atoms rendered, and two components subscribed to
    [countAtom]. *)
Definition counter_store : store :=
  subscribe countAtom 8%positive (subscribe countAtom 7%positive app_rendered).

(** A component subscribed to [tripledAtom] as well. *)
Definition triple_view_store : store :=
  subscribe tripledAtom 9%positive counter_store.

(** Depth of the atoms of [App.tsx] in the rendered graph. *)
Definition app_rank (a : atom_id) : nat := (3 - Pos.to_nat a)%nat.

(** ** A stale edge

    [choiceAtom] rendered once more after [flagAtom] was set to [true]: it
    now reads [leftAtom]. *)
Definition choice_rendered : store :=
  (getSnapshot 3 choiceAtom choice_store).2.

Definition choice_rendered_again : store :=
  (getSnapshot 3 choiceAtom choice_flipped).2.

(** A component subscribed to [doubledAtom] too: [doubledAtom] and its
    dependent [tripledAtom] both have a subscriber. *)
Definition views_store : store :=
  subscribe doubledAtom 5%positive triple_view_store.

(** ** A derived atom with a write function, a subscriber and a dependent

    The atoms of [handler_store] after [viaWritable] was rendered, which
    records [sourceAtom → writableAtom → viaWritable], with a subscriber on
    [writableAtom] and one on [viaWritable]. *)
Definition handler_rendered : store :=
  subscribe viaWritable 8%positive
    (subscribe writableAtom 7%positive
       (getSnapshot 3 viaWritable handler_store).2).

Definition handler_rank (a : atom_id) : nat := (6 - Pos.to_nat a)%nat.

(** * Properties *)

(** ** Relations preserved by every step of a computation *)

Section Preservation.
Context (R : relation store) `{!PreOrder R}.

Lemma ret_preserves {A} (a : A) : preserves R (ret a).
Proof. intros s. reflexivity. Qed.

Lemma throw_preserves {A} (e : exn) : preserves R (@throw A e).
Proof. intros s. reflexivity. Qed.

Lemma bind_preserves {A B} (m : M A) (f : A -> M B) :
  preserves R m → (∀ a, preserves R (f a)) → preserves R (bind m f).
Proof.
  intros Hm Hf s. unfold bind.
  specialize (Hm s). destruct (m s) as [[a|e|] s1]; simpl in *; try done.
  etrans; [exact Hm | apply Hf].
Qed.

Lemma forEach_preserves {A} (f : A -> M unit) (xs : list A) :
  (∀ x, preserves R (f x)) → preserves R (forEach f xs).
Proof.
  intros Hf. induction xs as [|x xs IH]; simpl.
  - apply ret_preserves.
  - apply bind_preserves; auto.
Qed.

Lemma run_read_preserves (g : atom_id -> M value) (read : ReadFn) :
  (∀ b, preserves R (g b)) → preserves R (run_read g read).
Proof.
  intros Hg. induction read as [v|b k IH|e]; simpl.
  - apply ret_preserves.
  - apply bind_preserves; auto.
  - apply throw_preserves.
Qed.

Lemma run_write_preserves (g : atom_id -> M value)
    (set : atom_id -> value -> M unit) (body : WriteBody) :
  (∀ b, preserves R (g b)) → (∀ b v, preserves R (set b v)) →
  preserves R (run_write g set body).
Proof.
  intros Hg Hset. induction body as [|b k IH|b v k IH|e]; simpl.
  - apply ret_preserves.
  - apply bind_preserves; auto.
  - apply bind_preserves; auto.
  - apply throw_preserves.
Qed.

(** The read path only touches the store through [track] and the
    computing-atom slot. *)
Hypothesis R_track : ∀ a s, R s (track a s).
Hypothesis R_computing : ∀ c s, R s (with_computing c s).

Lemma getAtomValue_preserves fuel a : preserves R (getAtomValue fuel a).
Proof.
  revert a. induction fuel as [|n IH]; intros a s; simpl; [reflexivity|].
  destruct (atoms s !! a) as [[brand|read write]|]; simpl; try reflexivity.
  unfold finally.
  pose proof (run_read_preserves (λ b s', getAtomValue n b (track b s')) read) as Hr.
  specialize (Hr (λ b s', transitivity (R_track b s') (IH b (track b s')))
                 (with_computing (Some a) s)).
  destruct (run_read _ read _) as [r s2]; simpl in *.
  etrans; [apply R_computing|]. etrans; [exact Hr|]. apply R_computing.
Qed.

Lemma get_preserves fuel a : preserves R (get fuel a).
Proof.
  intros s. unfold get. etrans; [apply R_track|]. apply getAtomValue_preserves.
Qed.
End Preservation.

(** ** Sets and edges *)

Lemma elem_of_set_add (x y : positive) (l : list positive) :
  y ∈ set_add x l ↔ y = x ∨ y ∈ l.
Proof.
  unfold set_add. case_decide as Hx.
  - split; [auto|]. intros [->|?]; done.
  - rewrite elem_of_app, list_elem_of_singleton. tauto.
Qed.

Lemma NoDup_set_add (x : positive) (l : list positive) :
  NoDup l → NoDup (set_add x l).
Proof.
  intros Hl. unfold set_add. case_decide as Hx; [done|].
  apply NoDup_app. split_and!; [done | | apply NoDup_singleton].
  intros y Hy ->%list_elem_of_singleton. done.
Qed.

Lemma has_edge_with_computing c s x y :
  has_edge (with_computing c s) x y ↔ has_edge s x y.
Proof. done. Qed.

Lemma track_atoms a s : atoms (track a s) = atoms s.
Proof. unfold track. by destruct (currentlyComputingAtom s). Qed.

Lemma track_computing a s :
  currentlyComputingAtom (track a s) = currentlyComputingAtom s.
Proof. unfold track. by destruct (currentlyComputingAtom s) eqn:E. Qed.

Lemma has_edge_track_new a c s :
  currentlyComputingAtom s = Some c → has_edge (track a s) a c.
Proof.
  intros Hc. unfold track, has_edge. rewrite Hc. simpl.
  eexists. rewrite lookup_insert_eq. split; [done|].
  apply elem_of_set_add. by left.
Qed.

Lemma has_edge_track_mono a s x y :
  has_edge s x y → has_edge (track a s) x y.
Proof.
  intros (ds & Hds & Hy). unfold track, has_edge.
  destruct (currentlyComputingAtom s) as [c|]; simpl; [|eauto].
  destruct (decide (a = x)) as [->|Hne].
  - rewrite lookup_insert_eq, Hds. simpl. eexists. split; [done|].
    apply elem_of_set_add. by right.
  - rewrite lookup_insert_ne by done. eauto.
Qed.

Lemma has_edge_track_inv a s x y :
  has_edge (track a s) x y →
  has_edge s x y ∨ (x = a ∧ currentlyComputingAtom s = Some y).
Proof.
  unfold track, has_edge.
  destruct (currentlyComputingAtom s) as [c|]; simpl; [|by left].
  intros (ds & Hds & Hy).
  destruct (decide (a = x)) as [->|Hne].
  - rewrite lookup_insert_eq in Hds. injection Hds as <-.
    apply elem_of_set_add in Hy as [->|Hy]; [by right|].
    left. destruct (dependencies s !! x) as [ds|]; simpl in *; [eauto|].
    by apply elem_of_nil in Hy.
  - rewrite lookup_insert_ne in Hds by done. eauto.
Qed.

(** ** Frames of the read path *)

#[local] Instance read_frame_preorder : PreOrder read_frame.
Proof.
  split.
  - intros s. unfold read_frame. auto.
  - intros s1 s2 s3 (?&?&?&?) (?&?&?&?). unfold read_frame. split_and!; congruence.
Qed.

#[local] Instance edges_grow_preorder : PreOrder edges_grow.
Proof.
  split.
  - intros s x y H. exact H.
  - intros s1 s2 s3 H12 H23 x y ?. auto.
Qed.

Lemma read_frame_track a s : read_frame s (track a s).
Proof. unfold track, read_frame. by destruct (currentlyComputingAtom s). Qed.

Lemma read_frame_computing c s : read_frame s (with_computing c s).
Proof. unfold read_frame. auto. Qed.

Lemma edges_grow_track a s : edges_grow s (track a s).
Proof. intros x y. apply has_edge_track_mono. Qed.

Lemma edges_grow_computing c s : edges_grow s (with_computing c s).
Proof. by intros x y. Qed.

Lemma getAtomValue_frame fuel a s : read_frame s (getAtomValue fuel a s).2.
Proof.
  apply (getAtomValue_preserves read_frame read_frame_track read_frame_computing).
Qed.

Lemma get_frame fuel a s : read_frame s (get fuel a s).2.
Proof.
  apply (get_preserves read_frame read_frame_track read_frame_computing).
Qed.

Lemma getAtomValue_edges_grow fuel a s : edges_grow s (getAtomValue fuel a s).2.
Proof.
  apply (getAtomValue_preserves edges_grow edges_grow_track edges_grow_computing).
Qed.

Lemma getAtomValue_unfold n a s :
  getAtomValue (S n) a s =
  match atoms s !! a with
  | None => (Thrown TypeError, s)
  | Some (PrimitiveAtom _) =>
      (Returned (default VUndefined (atomPrimitiveValues s !! a)), s)
  | Some (DerivedAtom read _) =>
      let '(r, s') := run_read (get n) read (with_computing (Some a) s) in
      (r, with_computing (currentlyComputingAtom s) s')
  end.
Proof. reflexivity. Qed.

Lemma getAtomValue_computing fuel a s :
  currentlyComputingAtom (getAtomValue fuel a s).2 = currentlyComputingAtom s.
Proof.
  destruct fuel as [|n]; [done|]. rewrite getAtomValue_unfold.
  destruct (atoms s !! a) as [[brand|read write]|]; try done.
  by destruct (run_read _ _ _).
Qed.

Lemma get_computing fuel a s :
  currentlyComputingAtom (get fuel a s).2 = currentlyComputingAtom s.
Proof. unfold get. by rewrite getAtomValue_computing, track_computing. Qed.

#[local] Instance tracked_step_preorder : PreOrder tracked_step.
Proof.
  split.
  - intros s. split_and!; auto.
  - intros s1 s2 s3 (Ha & Hc & He) (Ha' & Hc' & He').
    split_and!; [congruence..|].
    intros x y [H|H]%He'; [by apply He|].
    rewrite Ha, Hc in H. tauto.
Qed.

Lemma getAtomValue_new_edges fuel a s x y :
  has_edge (getAtomValue fuel a s).2 x y →
  has_edge s x y ∨ is_derived (atoms s !! y) = true.
Proof.
  revert a s x y. induction fuel as [|n IH]; intros a s x y; [by left|].
  rewrite getAtomValue_unfold.
  destruct (atoms s !! a) as [[brand|read write]|] eqn:Ha; try by left.
  assert (∀ b, preserves tracked_step (get n b)) as Hget.
  { intros b s1. split_and!.
    - destruct (get_frame n b s1) as [-> _]. done.
    - apply get_computing.
    - intros x' y' [H|H]%IH.
      + apply has_edge_track_inv in H as [H|[_ H]]; auto.
      + rewrite track_atoms in H. auto. }
  pose proof (run_read_preserves tracked_step (get n) read Hget
                (with_computing (Some a) s)) as (_ & _ & He).
  destruct (run_read _ _ _) as [r s2]; simpl in *.
  intros [H|[H|H]]%He; auto.
  injection H as <-. right. by rewrite Ha.
Qed.

Lemma get_tracked_step fuel a s : tracked_step s (get fuel a s).2.
Proof.
  split_and!.
  - destruct (get_frame fuel a s) as [-> _]. done.
  - apply get_computing.
  - intros x y [H|H]%getAtomValue_new_edges.
    + apply has_edge_track_inv in H as [H|[_ H]]; auto.
    + rewrite track_atoms in H. auto.
Qed.

(** ** Frames of the write path *)

#[local] Instance only_notified_preorder : PreOrder only_notified.
Proof.
  split.
  - intros s. unfold only_notified. split_and!; done.
  - intros s1 s2 s3 (?&?&?&?&?&?) (?&?&?&?&?&?).
    unfold only_notified. split_and!; [congruence..|by etrans].
Qed.

#[local] Instance write_frame_preorder : PreOrder write_frame.
Proof.
  split.
  - intros s. unfold write_frame. auto.
  - intros s1 s2 s3 (?&?&?&?) (?&?&?&?).
    unfold write_frame. split_and!; congruence.
Qed.

Lemma only_notified_write_frame s s' : only_notified s s' → write_frame s s'.
Proof. intros (?&?&?&?&?&?). unfold write_frame. auto. Qed.

Lemma only_notified_tracked_step s s' : only_notified s s' → tracked_step s s'.
Proof.
  intros (Ha&_&Hc&_&Hd&_). split_and!; [done..|].
  intros x y (ds & Hds & Hy). left. exists ds. by rewrite <- Hd.
Qed.

Lemma forDependents_preserves (R : relation store) `{!PreOrder R} a f :
  (∀ x, preserves R (f x)) → preserves R (forDependents a f).
Proof.
  intros Hf s. unfold forDependents.
  destruct (dependencies s !! a) as [ds|]; [|reflexivity].
  by apply forEach_preserves.
Qed.

Lemma notify_only_notified a : preserves only_notified (notify a).
Proof.
  intros s. unfold only_notified. split_and!; [done..|].
  by apply prefix_app_r.
Qed.

Lemma updateReadonlyDerivedAtom_only_notified fuel a :
  preserves only_notified (updateReadonlyDerivedAtom fuel a).
Proof.
  revert a. induction fuel as [|n IH]; intros a; simpl.
  - intros s. reflexivity.
  - apply bind_preserves; [apply _ | apply notify_only_notified |].
    intros _. apply forDependents_preserves; [apply _ | done].
Qed.

Lemma updatePrimitiveAtom_spec fuel a v s :
  only_notified (with_values (<[a := v]> (atomPrimitiveValues s)) s)
                (updatePrimitiveAtom fuel a v s).2.
Proof.
  unfold updatePrimitiveAtom, bind at 1, ret. simpl.
  apply (bind_preserves only_notified); [apply notify_only_notified|].
  intros _. apply forDependents_preserves; [apply _|].
  apply updateReadonlyDerivedAtom_only_notified.
Qed.

Lemma updateAtom_values fuel a v s :
  atomPrimitiveValues (updateAtom fuel a v s).2 =
  if is_primitive (atoms s !! a)
  then <[a := v]> (atomPrimitiveValues s) else atomPrimitiveValues s.
Proof.
  unfold updateAtom.
  destruct (atoms s !! a) as [[brand|read write]|]; simpl; [| |done].
  - by destruct (updatePrimitiveAtom_spec fuel a v s) as (_&->&_).
  - by destruct (updateReadonlyDerivedAtom_only_notified fuel a s) as (_&->&_).
Qed.

Lemma updateAtom_write_frame fuel a v : preserves write_frame (updateAtom fuel a v).
Proof.
  intros s. unfold updateAtom.
  destruct (atoms s !! a) as [[brand|read write]|]; simpl; [| |reflexivity].
  - destruct (updatePrimitiveAtom_spec fuel a v s) as (?&?&?&?&?&?).
    unfold write_frame. auto.
  - apply only_notified_write_frame, updateReadonlyDerivedAtom_only_notified.
Qed.

Lemma updateAtom_tracked_step fuel a v : preserves tracked_step (updateAtom fuel a v).
Proof.
  intros s. destruct (updateAtom_write_frame fuel a v s) as (Ha&Hc&_&Hd).
  split_and!; [done..|].
  intros x y (ds & Hds & Hy). left. exists ds. by rewrite <- Hd.
Qed.

(** *** Propagation returns on a well-founded graph *)

Lemma forEach_returns (f : atom_id -> M unit) (xs : list atom_id) s :
  (∀ x, preserves only_notified (f x)) →
  (∀ x t, x ∈ xs → dependencies t = dependencies s → (f x t).1 = Returned tt) →
  (forEach f xs s).1 = Returned tt.
Proof.
  intros Hframe. revert s. induction xs as [|x xs IH]; intros s Hf; simpl; [done|].
  unfold bind.
  pose proof (Hf x s (list_elem_of_here x xs) eq_refl) as Hx.
  destruct (Hframe x s) as (_ & _ & _ & _ & Hdeps & _).
  destruct (f x s) as [o s1]. simpl in *. subst o.
  apply IH. intros y t Hy Ht. apply Hf; [by apply list_elem_of_further | congruence].
Qed.

(** When every edge leads to an atom of smaller rank, propagation from [a]
    returns as soon as the fuel exceeds the rank of [a]. *)
Lemma updateReadonlyDerivedAtom_returns (rank : atom_id -> nat) s :
  (∀ x y, has_edge s x y → (rank y < rank x)%nat) →
  ∀ fuel a t, (rank a < fuel)%nat → dependencies t = dependencies s →
    (updateReadonlyDerivedAtom fuel a t).1 = Returned tt.
Proof.
  intros Hrank. induction fuel as [|n IH]; intros a t Ha Ht; [lia|].
  simpl. unfold bind, notify, forDependents. simpl.
  destruct (dependencies t !! a) as [ds|] eqn:Hds; [|done].
  apply forEach_returns.
  - intros x. apply updateReadonlyDerivedAtom_only_notified.
  - intros x t' Hx Ht'. apply IH; [|simpl in Ht'; congruence].
    assert (rank x < rank a)%nat; [|lia].
    apply Hrank. exists ds. by rewrite <- Ht.
Qed.

Lemma updatePrimitiveAtom_returns (rank : atom_id -> nat) fuel a v s :
  (∀ x y, has_edge s x y → (rank y < rank x)%nat) →
  (rank a ≤ fuel)%nat →
  (updatePrimitiveAtom fuel a v s).1 = Returned tt.
Proof.
  intros Hrank Ha. unfold updatePrimitiveAtom, bind, ret, notify, forDependents.
  simpl. destruct (dependencies s !! a) as [ds|] eqn:Hds; [|done].
  apply forEach_returns.
  - intros x. apply updateReadonlyDerivedAtom_only_notified.
  - intros x t Hx Ht. apply (updateReadonlyDerivedAtom_returns rank s Hrank); [|done].
    assert (rank x < rank a)%nat; [|lia]. apply Hrank. by exists ds.
Qed.

(** *** Propagation does not look at the atom table *)

Lemma bind_heap_blind {A B} (m : M A) (f : A -> M B) :
  heap_blind m → (∀ a, heap_blind (f a)) → heap_blind (bind m f).
Proof.
  intros Hm Hf h s. unfold bind. rewrite Hm.
  destruct (m s) as [[a|e|] s1]; try done. apply Hf.
Qed.

Lemma forEach_heap_blind {A} (f : A -> M unit) xs :
  (∀ x, heap_blind (f x)) → heap_blind (forEach f xs).
Proof.
  intros Hf. induction xs as [|x xs IH]; simpl; [done|].
  apply bind_heap_blind; auto.
Qed.

Lemma updateReadonlyDerivedAtom_heap_blind fuel a :
  heap_blind (updateReadonlyDerivedAtom fuel a).
Proof.
  revert a. induction fuel as [|n IH]; intros a; simpl; [done|].
  apply bind_heap_blind; [done|]. intros _ h s. unfold forDependents. simpl.
  destruct (dependencies s !! a) as [ds|]; [|done].
  by apply forEach_heap_blind.
Qed.

(** *** Propagation raises no exception *)

Lemma bind_no_throw {A B} (m : M A) (f : A -> M B) :
  no_throw m → (∀ a, no_throw (f a)) → no_throw (bind m f).
Proof.
  intros Hm Hf s e. unfold bind. specialize (Hm s).
  destruct (m s) as [[a|e'|] s1]; simpl in *; [apply Hf | | done].
  by destruct (Hm e').
Qed.

Lemma forEach_no_throw {A} (f : A -> M unit) xs :
  (∀ x, no_throw (f x)) → no_throw (forEach f xs).
Proof.
  intros Hf. induction xs as [|x xs IH]; simpl; [done|].
  apply bind_no_throw; auto.
Qed.

Lemma updateReadonlyDerivedAtom_no_throw fuel a :
  no_throw (updateReadonlyDerivedAtom fuel a).
Proof.
  revert a. induction fuel as [|n IH]; intros a; simpl; [done|].
  apply bind_no_throw; [done|]. intros _ s e. unfold forDependents.
  destruct (dependencies s !! a) as [ds|]; [|done].
  by apply forEach_no_throw.
Qed.

(** ** The computing atom around a read *)

Lemma run_read_computing_throughout fuel c read s :
  currentlyComputingAtom s = Some c →
  computing_throughout (get fuel) c read s.
Proof.
  revert s. induction read as [v|b k IH|e]; intros s Hc; simpl; [done| |done].
  split; [done|]. intros v s' Hget. apply IH.
  rewrite <- Hc, <- (get_computing fuel b s). by rewrite Hget.
Qed.

(** C6. Reading an atom leaves the computing-atom slot as it found it,
    whatever the outcome of the read (a value, an exception raised by the
    read function, exhausted fuel).  For a derived atom the read function
    runs from a store whose slot holds that atom, the slot holds it at every
    [get] the function issues, and the saved slot is written back at the
    end.  The tracked read [get] leaves the slot alone as well. *)
Theorem getAtomValue_restores_computing_atom fuel a s :
  currentlyComputingAtom (getAtomValue fuel a s).2 = currentlyComputingAtom s
  ∧ currentlyComputingAtom (get fuel a s).2 = currentlyComputingAtom s
  ∧ match atoms s !! a with
    | Some (DerivedAtom read _) =>
        getAtomValue (S fuel) a s =
          (let '(r, s') := run_read (get fuel) read (with_computing (Some a) s) in
           (r, with_computing (currentlyComputingAtom s) s'))
        ∧ computing_throughout (get fuel) a read (with_computing (Some a) s)
    | _ => (getAtomValue (S fuel) a s).2 = s
    end.
Proof.
  split_and!; [apply getAtomValue_computing | apply get_computing |].
  rewrite getAtomValue_unfold.
  destruct (atoms s !! a) as [[brand|read write]|]; try done.
  split; [done|]. by apply run_read_computing_throughout.
Qed.

(** A read function that throws: the exception reaches the caller and the
    slot holds what it held before the call. *)
Example failed_read_restores_computing_atom :
  (getAtomValue 3 userAtom (with_computing (Some 9%positive) broken_store)).1
    = Thrown (Error "boom")
  ∧ currentlyComputingAtom
      (getAtomValue 3 userAtom (with_computing (Some 9%positive) broken_store)).2
    = Some 9%positive.
Proof. split; reflexivity. Qed.

(** ** Edges are recorded before the value is resolved *)

(** C10. Under a computing atom [d], the tracked read [get c] first records
    the edge [c → d] and then resolves [c] from the store that already has
    the edge; the edge is in the final store whatever the outcome of
    resolving [c], an exception included. *)
Theorem get_records_edge_before_resolving fuel c d s :
  currentlyComputingAtom s = Some d →
  has_edge (track c s) c d
  ∧ get fuel c s = getAtomValue fuel c (track c s)
  ∧ has_edge (get fuel c s).2 c d.
Proof.
  intros Hd. pose proof (has_edge_track_new c d s Hd) as He.
  split_and!; [done..|]. by apply getAtomValue_edges_grow.
Qed.

Lemma get_records_edge_before_resolving_witness :
  (get 3 brokenAtom (with_computing (Some userAtom) broken_store)).1
    = Thrown (Error "boom")
  ∧ has_edge (get 3 brokenAtom (with_computing (Some userAtom) broken_store)).2
             brokenAtom userAtom.
Proof.
  split; [reflexivity|].
  apply (get_records_edge_before_resolving 3 brokenAtom userAtom
           (with_computing (Some userAtom) broken_store)).
  reflexivity.
Defined.

(** The same from the outside: a derived atom whose read function starts
    with [get(c)] leaves the edge [c → d] behind even when the read fails. *)
Corollary failed_read_leaves_edge fuel c d k write s :
  atoms s !! d = Some (DerivedAtom (RGet c k) write) →
  has_edge (getAtomValue (S fuel) d s).2 c d.
Proof.
  intros Hd. rewrite getAtomValue_unfold, Hd.
  set (s1 := with_computing (Some d) s).
  assert (has_edge (run_read (get fuel) (RGet c k) s1).2 c d) as He.
  { simpl. unfold bind.
    assert (has_edge (get fuel c s1).2 c d) as Hget.
    { apply getAtomValue_edges_grow. by apply has_edge_track_new. }
    destruct (get fuel c s1) as [[v|e|] s2]; simpl in *; try done.
    assert (edges_grow s2 (run_read (get fuel) (k v) s2).2) as Hk; [|by apply Hk].
    apply (run_read_preserves edges_grow). intros b.
    apply (get_preserves edges_grow edges_grow_track edges_grow_computing). }
  by destruct (run_read _ _ _).
Qed.

Example failed_read_leaves_edge_ex :
  (getAtomValue 3 userAtom broken_store).1 = Thrown (Error "boom")
  ∧ dependencies (getAtomValue 3 userAtom broken_store).2
    = {[ brokenAtom := [userAtom] ]}.
Proof. split; reflexivity. Qed.

(** ** Reading again *)

Lemma track_recorded b t :
  (∀ c, currentlyComputingAtom t = Some c → has_edge t b c) →
  track b t = t.
Proof.
  intros Hc. unfold track.
  destruct (currentlyComputingAtom t) as [c|] eqn:Ht; [|done].
  destruct (Hc c eq_refl) as (ds & Hds & Hin).
  destruct t as [h vs cc subs deps log]. simpl in *.
  unfold with_dependencies. simpl. f_equal.
  rewrite Hds. simpl. unfold set_add. rewrite decide_True by done.
  by apply insert_id.
Qed.

Lemma edges_grow_same_dependencies u t t' :
  dependencies t' = dependencies t → edges_grow u t → edges_grow u t'.
Proof. intros Hd Hg x y Hxy. unfold has_edge. rewrite Hd. by apply Hg. Qed.

Lemma getAtomValue_same_inputs fuel a u t :
  same_inputs u t →
  same_inputs (getAtomValue fuel a u).2 (getAtomValue fuel a t).2.
Proof.
  intros (Ha & Hv & Hc).
  destruct (getAtomValue_frame fuel a u) as (Hau & Hvu & _).
  destruct (getAtomValue_frame fuel a t) as (Hat & Hvt & _).
  unfold same_inputs. rewrite !getAtomValue_computing. split_and!; congruence.
Qed.

(** A store that already holds every edge a read records is read with the
    same outcome and keeps its dependency graph. *)
Lemma getAtomValue_replay fuel a u t :
  same_inputs u t →
  edges_grow (getAtomValue fuel a u).2 t →
  (getAtomValue fuel a t).1 = (getAtomValue fuel a u).1
  ∧ dependencies (getAtomValue fuel a t).2 = dependencies t.
Proof.
  revert a u t. induction fuel as [|n IH]; intros a u t Hsame Hsub; [done|].
  rewrite !getAtomValue_unfold in *.
  destruct Hsame as (Ha & Hv & Hc). rewrite Ha.
  destruct (atoms u !! a) as [[brand|read write]|] eqn:Hu; simpl.
  - by rewrite Hv.
  - assert (∀ rd u1 t1, same_inputs u1 t1 →
              edges_grow (run_read (get n) rd u1).2 t1 →
              (run_read (get n) rd t1).1 = (run_read (get n) rd u1).1
              ∧ dependencies (run_read (get n) rd t1).2 = dependencies t1) as Hrun.
    { clear -IH. induction rd as [v|b k IHk|e]; intros u1 t1 Hsame Hsub; simpl; try done.
      simpl in Hsub. unfold bind in *. unfold get in *.
      pose proof (getAtomValue_edges_grow n b (track b u1)) as Hgrow.
      assert (edges_grow (getAtomValue n b (track b u1)).2 t1) as Hsub1.
      { destruct (getAtomValue n b (track b u1)) as [[v|e|] u2]; simpl in *; try done.
        etrans; [|exact Hsub].
        apply (run_read_preserves edges_grow). intros b'.
        apply (get_preserves edges_grow edges_grow_track edges_grow_computing). }
      assert (track b t1 = t1) as Htrack.
      { apply track_recorded. intros c Hc. apply Hsub1, Hgrow.
        apply has_edge_track_new. destruct Hsame as (_ & _ & <-). done. }
      rewrite Htrack.
      assert (same_inputs (track b u1) t1) as Hsame1.
      { destruct Hsame as (Ha & Hv & Hc). unfold same_inputs.
        rewrite track_atoms, track_computing.
        by destruct (read_frame_track b u1) as (_ & -> & _). }
      destruct (IH b (track b u1) t1 Hsame1 Hsub1) as [Ho Hd].
      pose proof (getAtomValue_same_inputs n b _ _ Hsame1) as Hsame2.
      destruct (getAtomValue n b (track b u1)) as [o u2].
      destruct (getAtomValue n b t1) as [o' t2]. simpl in *. subst o'.
      destruct o as [v|e|]; try done.
      destruct (IHk v u2 t2 Hsame2) as [Ho' Hd'].
      { by apply (edges_grow_same_dependencies _ t1). }
      split; [done | congruence]. }
    assert (same_inputs (with_computing (Some a) u) (with_computing (Some a) t))
      as Hsame1 by done.
    specialize (Hrun read _ _ Hsame1).
    destruct (run_read (get n) read (with_computing (Some a) u)) as [o u2].
    destruct (run_read (get n) read (with_computing (Some a) t)) as [o' t2].
    simpl in *. by apply Hrun.
  - done.
Qed.

(** ** The snapshot read and the dependency graph *)

(** C7 as stated fails.  The snapshot of a derived atom that was never read
    records its edges: [getSnapshot] of [doubledAtom] in the fresh
    [app_store] adds [countAtom → doubledAtom]. *)
Lemma getSnapshot_adds_edge :
  dependencies app_store = ∅
  ∧ dependencies (getSnapshot 3 doubledAtom app_store).2
    = {[ countAtom := [doubledAtom] ]}
  ∧ dependencies (getSnapshot 3 doubledAtom app_store).2 ≠ dependencies app_store.
Proof. split_and!; [reflexivity..|]. by vm_compute. Qed.

(** C7 (amended). The snapshot read of a source atom changes nothing.  The
    snapshot read of a derived atom runs its read function under tracking:
    no edge is removed, each edge it adds has a derived atom as its
    dependent, and a store that already holds the edges of that evaluation
    (the store left by a first snapshot, for one) keeps its dependency
    graph. *)
Theorem getSnapshot_edges fuel a s :
  (if is_derived (atoms s !! a) then True else (getSnapshot fuel a s).2 = s)
  ∧ edges_grow s (getSnapshot fuel a s).2
  ∧ (∀ x y, has_edge (getSnapshot fuel a s).2 x y →
            has_edge s x y ∨ is_derived (atoms s !! y) = true)
  ∧ (∀ t, same_inputs s t → edges_grow (getSnapshot fuel a s).2 t →
          dependencies (getSnapshot fuel a t).2 = dependencies t)
  ∧ dependencies (getSnapshot fuel a (getSnapshot fuel a s).2).2
    = dependencies (getSnapshot fuel a s).2.
Proof.
  unfold getSnapshot. split_and!.
  - destruct fuel as [|n]; [by destruct (is_derived _)|].
    rewrite getAtomValue_unfold.
    by destruct (atoms s !! a) as [[brand|read write]|].
  - apply getAtomValue_edges_grow.
  - apply getAtomValue_new_edges.
  - intros t Hsame Hsub. by apply (getAtomValue_replay fuel a s t).
  - apply (getAtomValue_replay fuel a s); [|done].
    destruct (getAtomValue_frame fuel a s) as (Ha & Hv & _).
    unfold same_inputs. by rewrite getAtomValue_computing.
Qed.

Lemma getSnapshot_edges_witness :
  (getSnapshot 3 countAtom app_store).2 = app_store
  ∧ has_edge (getSnapshot 3 tripledAtom
                (getSnapshot 3 doubledAtom app_store).2).2 countAtom doubledAtom
  ∧ dependencies (getSnapshot 3 doubledAtom
                    (getSnapshot 3 doubledAtom app_store).2).2
    = {[ countAtom := [doubledAtom] ]}.
Proof.
  split_and!.
  - apply (getSnapshot_edges 3 countAtom app_store).
  - apply (getSnapshot_edges 3 tripledAtom (getSnapshot 3 doubledAtom app_store).2).
    exists [doubledAtom]. split; [reflexivity|]. apply list_elem_of_here.
  - destruct (getSnapshot_edges 3 doubledAtom app_store) as (_ & _ & _ & H & _).
    rewrite (H (getSnapshot 3 doubledAtom app_store).2).
    + reflexivity.
    + unfold same_inputs. split_and!; reflexivity.
    + intros x y Hxy. exact Hxy.
Defined.

(** ** The setter handed to write functions *)

Lemma updateAtom_derived fuel t v s :
  is_derived (atoms s !! t) = true →
  updateAtom fuel t v s = updateReadonlyDerivedAtom fuel t s.
Proof.
  unfold updateAtom. by destruct (atoms s !! t) as [[brand|read write]|].
Qed.

Lemma updateAtom_primitive fuel t v s :
  is_primitive (atoms s !! t) = true →
  updateAtom fuel t v s = setValue fuel t (Plain v) s.
Proof.
  unfold setValue, bind, ret.
  by destruct (atoms s !! t) as [[brand|read write]|].
Qed.

Lemma setValue_handler fuel c read write nextValue s :
  atoms s !! c = Some (DerivedAtom read (Some write)) →
  setValue fuel c nextValue s =
  match nextValue with
  | Plain v => run_write (get fuel) (updateAtom fuel) (write v) s
  | Updater fn =>
      (let* prev := getAtomValue fuel c in
       run_write (get fuel) (updateAtom fuel) (write (fn prev))) s
  end.
Proof.
  intros Hc. unfold setValue. destruct nextValue as [v|fn].
  - unfold bind, ret. by rewrite Hc.
  - unfold bind at 1 2 3, ret.
    destruct (getAtomValue_frame fuel c s) as (Ha & _).
    destruct (getAtomValue fuel c s) as [[prev|e|] s1]; simpl in *; try done.
    by rewrite Ha, Hc.
Qed.

(** ** Writes through a write function *)

(** C2 as stated fails: the setter is not the external write.  An external
    write to [readOnlyAtom] raises the read-only error; the same write
    issued by the write function of [viaReadOnly] returns normally.  An
    external write to [writableAtom] runs its write function and stores 5 in
    [sourceAtom]; the same write issued by the write function of
    [viaWritable] leaves [sourceAtom] at 0. *)
Lemma handler_set_differs_from_setValue :
  (setValue 3 readOnlyAtom (Plain (VNum 5)) handler_store).1
    = Thrown read_only_error
  ∧ (setValue 3 viaReadOnly (Plain (VNum 5)) handler_store).1 = Returned tt
  ∧ atomPrimitiveValues
      (setValue 3 writableAtom (Plain (VNum 5)) handler_store).2 !! sourceAtom
    = Some (VNum 5)
  ∧ atomPrimitiveValues
      (setValue 3 viaWritable (Plain (VNum 5)) handler_store).2 !! sourceAtom
    = Some (VNum 0).
Proof. split_and!; reflexivity. Qed.

(** C2 (amended). A write to a derived atom with a write function runs that
    function with the accessor [get] and the setter [updateAtom].  On a
    primitive target the setter is the external write of a plain value; on a
    derived target it is the propagation from the target and raises no
    exception. *)
Theorem write_function_gets_updateAtom fuel c read write nextValue s :
  atoms s !! c = Some (DerivedAtom read (Some write)) →
  setValue fuel c nextValue s =
    match nextValue with
    | Plain v => run_write (get fuel) (updateAtom fuel) (write v) s
    | Updater fn =>
        (let* prev := getAtomValue fuel c in
         run_write (get fuel) (updateAtom fuel) (write (fn prev))) s
    end
  ∧ ∀ t v s1,
      match atoms s1 !! t with
      | Some (PrimitiveAtom _) =>
          updateAtom fuel t v s1 = setValue fuel t (Plain v) s1
      | Some (DerivedAtom _ _) =>
          updateAtom fuel t v s1 = updateReadonlyDerivedAtom fuel t s1
          ∧ ∀ e, (updateAtom fuel t v s1).1 ≠ Thrown e
      | None => updateAtom fuel t v s1 = (Thrown TypeError, s1)
      end.
Proof.
  intros Hc. split; [by eapply setValue_handler|].
  intros t v s1. destruct (atoms s1 !! t) as [[brand|rd wr]|] eqn:Ht.
  - apply updateAtom_primitive. by rewrite Ht.
  - assert (updateAtom fuel t v s1 = updateReadonlyDerivedAtom fuel t s1) as Heq.
    { apply updateAtom_derived. by rewrite Ht. }
    split; [done|]. rewrite Heq. apply updateReadonlyDerivedAtom_no_throw.
  - unfold updateAtom. by rewrite Ht.
Qed.

Lemma write_function_gets_updateAtom_witness :
  setValue 3 countAtom3WithWrite (Plain (VNum 5)) app_store
  = run_write (get 3) (updateAtom 3) (countAtom3_write (VNum 5)) app_store.
Proof.
  apply (write_function_gets_updateAtom 3 countAtom3WithWrite
           (mapped countAtom (times 2)) countAtom3_write
           (Plain (VNum 5)) app_store).
  reflexivity.
Defined.

(** ** Writes to a read-only derived atom *)

(** C3 as stated fails for an updater argument.  A write with an updater
    function to the read-only [choiceAtom] raises the read-only error, after
    the read that feeds the updater has recorded the new edge
    [leftAtom → choiceAtom]. *)
Lemma read_only_write_with_updater_adds_edge :
  (setValue 3 choiceAtom (Updater id) choice_flipped).1 = Thrown read_only_error
  ∧ dependencies choice_flipped = {[ flagAtom := [choiceAtom]; rightAtom := [choiceAtom] ]}
  ∧ dependencies (setValue 3 choiceAtom (Updater id) choice_flipped).2
    = {[ flagAtom := [choiceAtom]; rightAtom := [choiceAtom]; leftAtom := [choiceAtom] ]}
  ∧ dependencies (setValue 3 choiceAtom (Updater id) choice_flipped).2
    ≠ dependencies choice_flipped.
Proof. split_and!; [reflexivity..|]. by vm_compute. Qed.

(** C3 (amended). On a derived atom without a write function, a write of a
    plain value raises the read-only error and returns the store it was
    given.  A write with an updater function first reads the atom: the final
    store is the one that read leaves, which keeps the atom table, the
    values, the subscriptions, the notification log and the computing atom,
    and can only have gained edges; the read-only error is raised when the
    read returns a value, and otherwise the outcome of the read is the
    outcome of the write. *)
Theorem setValue_read_only fuel c read s :
  atoms s !! c = Some (DerivedAtom read None) →
  (∀ v, setValue fuel c (Plain v) s = (Thrown read_only_error, s))
  ∧ ∀ fn,
      (setValue fuel c (Updater fn) s).2 = (getAtomValue fuel c s).2
      ∧ (setValue fuel c (Updater fn) s).1 =
          match (getAtomValue fuel c s).1 with
          | Returned _ => Thrown read_only_error
          | Thrown e => Thrown e
          | OutOfFuel => OutOfFuel
          end
      ∧ read_frame s (setValue fuel c (Updater fn) s).2
      ∧ currentlyComputingAtom (setValue fuel c (Updater fn) s).2
        = currentlyComputingAtom s
      ∧ edges_grow s (setValue fuel c (Updater fn) s).2.
Proof.
  intros Hc. split.
  - intros v. unfold setValue, bind, ret. by rewrite Hc.
  - intros fn.
    assert ((setValue fuel c (Updater fn) s).2 = (getAtomValue fuel c s).2
            ∧ (setValue fuel c (Updater fn) s).1 =
                match (getAtomValue fuel c s).1 with
                | Returned _ => Thrown read_only_error
                | Thrown e => Thrown e
                | OutOfFuel => OutOfFuel
                end) as [Hs Ho].
    { unfold setValue, bind, ret.
      destruct (getAtomValue_frame fuel c s) as (Ha & _).
      destruct (getAtomValue fuel c s) as [[prev|e|] s1]; simpl in *; try done.
      by rewrite Ha, Hc. }
    rewrite Hs. split_and!; [done | done | | |].
    + apply getAtomValue_frame.
    + apply getAtomValue_computing.
    + apply getAtomValue_edges_grow.
Qed.

Lemma setValue_read_only_witness :
  setValue 3 doubledAtom (Plain (VNum 5)) app_store
  = (Thrown read_only_error, app_store).
Proof.
  apply (setValue_read_only 3 doubledAtom (mapped countAtom (times 2)) app_store).
  reflexivity.
Defined.

(** ** Derived values after a write *)

Lemma getAtomValue_primitive n a brand s :
  atoms s !! a = Some (PrimitiveAtom brand) →
  getAtomValue (S n) a s
  = (Returned (default VUndefined (atomPrimitiveValues s !! a)), s).
Proof. intros Ha. by rewrite getAtomValue_unfold, Ha. Qed.

Lemma getAtomValue_mapped n d source f write s :
  atoms s !! d = Some (DerivedAtom (mapped source f) write) →
  (getAtomValue (S n) d s).1
  = outcome_map f (get n source (with_computing (Some d) s)).1.
Proof.
  intros Hd. rewrite getAtomValue_unfold, Hd. unfold mapped. simpl.
  unfold bind, ret.
  by destruct (get n source (with_computing (Some d) s)) as [[v|e|] s1].
Qed.

(** The store after a plain write to a primitive atom. *)
Lemma setValue_primitive fuel a brand v s :
  atoms s !! a = Some (PrimitiveAtom brand) →
  atoms (setValue fuel a (Plain v) s).2 = atoms s
  ∧ atomPrimitiveValues (setValue fuel a (Plain v) s).2
    = <[a := v]> (atomPrimitiveValues s).
Proof.
  intros Ha. rewrite <- updateAtom_primitive by by rewrite Ha.
  unfold updateAtom. rewrite Ha.
  by destruct (updatePrimitiveAtom_spec fuel a v s) as (->&->&_).
Qed.

(** C1. A write of [v] to a source atom returns as soon as the fuel covers
    the depth of the dependency graph below it (when the graph has a depth).
    After the write, whatever its fuel, a derived atom that maps the source
    through [f] reads as [f v], and a derived atom that maps that one
    through [g] reads as [g (f v)], by the snapshot read and by the tracked
    read alike, as soon as the fuel covers the depth of the chain. *)
Theorem derived_reads_follow_write (source : atom_id) (brand v : value) fw s :
  atoms s !! source = Some (PrimitiveAtom brand) →
  let s' := (setValue fw source (Plain v) s).2 in
  (∀ rank : atom_id -> nat,
     (∀ x y, has_edge s x y → (rank y < rank x)%nat) → (rank source ≤ fw)%nat →
     (setValue fw source (Plain v) s).1 = Returned tt)
  ∧ (∀ d f write fr,
     atoms s !! d = Some (DerivedAtom (mapped source f) write) →
     (getAtomValue (2 + fr) d s').1 = Returned (f v)
     ∧ (get (2 + fr) d s').1 = Returned (f v))
  ∧ (∀ d1 d2 f g write1 write2 fr,
       atoms s !! d1 = Some (DerivedAtom (mapped source f) write1) →
       atoms s !! d2 = Some (DerivedAtom (mapped d1 g) write2) →
       (getAtomValue (3 + fr) d1 s').1 = Returned (f v)
       ∧ (getAtomValue (3 + fr) d2 s').1 = Returned (g (f v))
       ∧ (get (3 + fr) d2 s').1 = Returned (g (f v))).
Proof.
  intros Hsrc s'.
  destruct (setValue_primitive fw source brand v s Hsrc) as [Hatoms Hvalues].
  fold s' in Hatoms, Hvalues.
  (* a read of [source] from any store with the tables of [s'] *)
  assert (∀ n t, atoms t = atoms s' → atomPrimitiveValues t = atomPrimitiveValues s' →
                 (get (S n) source t).1 = Returned v) as Hsource.
  { intros n t Ht Hv. unfold get.
    rewrite (getAtomValue_primitive n source brand).
    - simpl. destruct (read_frame_track source t) as (_ & -> & _).
      by rewrite Hv, Hvalues, lookup_insert_eq.
    - by rewrite track_atoms, Ht, Hatoms. }
  assert (∀ n d f write t,
            atoms s !! d = Some (DerivedAtom (mapped source f) write) →
            atoms t = atoms s' → atomPrimitiveValues t = atomPrimitiveValues s' →
            (getAtomValue (S (S n)) d t).1 = Returned (f v)) as Hone.
  { intros n d f write t Hd Ht Hv.
    rewrite (getAtomValue_mapped _ d source f write) by by rewrite Ht, Hatoms.
    by rewrite Hsource. }
  assert (∀ n d f write t,
            atoms s !! d = Some (DerivedAtom (mapped source f) write) →
            atoms t = atoms s' → atomPrimitiveValues t = atomPrimitiveValues s' →
            (get (S (S n)) d t).1 = Returned (f v)) as Hone_get.
  { intros n d f write t Hd Ht Hv. unfold get.
    destruct (read_frame_track d t) as (Ha & Hv' & _).
    apply (Hone n d f write); [done | congruence | congruence]. }
  assert (∀ n d1 d2 f g write1 write2 t,
            atoms s !! d1 = Some (DerivedAtom (mapped source f) write1) →
            atoms s !! d2 = Some (DerivedAtom (mapped d1 g) write2) →
            atoms t = atoms s' → atomPrimitiveValues t = atomPrimitiveValues s' →
            (getAtomValue (S (S (S n))) d2 t).1 = Returned (g (f v))) as Htwo.
  { intros n d1 d2 f g write1 write2 t Hd1 Hd2 Ht Hv.
    rewrite (getAtomValue_mapped _ d2 d1 g write2) by by rewrite Ht, Hatoms.
    by rewrite (Hone_get n d1 f write1). }
  split_and!.
  - intros rank Hrank Hfw.
    rewrite <- updateAtom_primitive by by rewrite Hsrc.
    unfold updateAtom. rewrite Hsrc. by apply (updatePrimitiveAtom_returns rank).
  - intros d f write fr Hd. split; [by eapply Hone | by eapply Hone_get].
  - intros d1 d2 f g write1 write2 fr Hd1 Hd2. split_and!.
    + by apply (Hone (S fr) d1 f write1).
    + by apply (Htwo fr d1 d2 f g write1 write2).
    + unfold get. destruct (read_frame_track d2 s') as (Ha & Hv' & _).
      by apply (Htwo fr d1 d2 f g write1 write2).
Qed.

(** In the store of [App.tsx] after both derived atoms were rendered,
    [write(countAtom, 4)] returns with fuel 2; then [doubledAtom] reads 8
    and [tripledAtom] reads 24. *)
Lemma derived_reads_follow_write_witness :
  (setValue 2 countAtom (Plain (VNum 4)) app_rendered).1 = Returned tt
  ∧ (getAtomValue 3 doubledAtom
       (setValue 2 countAtom (Plain (VNum 4)) app_rendered).2).1 = Returned (VNum 8)
  ∧ (getAtomValue 3 tripledAtom
       (setValue 2 countAtom (Plain (VNum 4)) app_rendered).2).1 = Returned (VNum 24).
Proof.
  pose proof (derived_reads_follow_write countAtom (VNum 0) (VNum 4) 2 app_rendered
                eq_refl) as (Hw & _ & H).
  specialize (H doubledAtom tripledAtom (times 2) (times 3) None None 0%nat
                eq_refl eq_refl) as (H1 & H2 & _).
  split_and!; [|exact H1 | exact H2].
  apply (Hw (λ a, (3 - Pos.to_nat a)%nat)); [|vm_compute; lia].
  intros x y (ds & Hds & Hy).
  change (dependencies app_rendered)
    with ({[ countAtom := [doubledAtom]; doubledAtom := [tripledAtom] ]}
          : gmap positive (list positive)) in Hds.
  destruct (decide (x = countAtom)) as [->|Hx1].
  - rewrite lookup_insert_eq in Hds. injection Hds as <-.
    apply list_elem_of_singleton in Hy as ->. vm_compute. lia.
  - rewrite lookup_insert_ne in Hds by done.
    destruct (decide (x = doubledAtom)) as [->|Hx2].
    + rewrite lookup_singleton_eq in Hds. injection Hds as <-.
      apply list_elem_of_singleton in Hy as ->. vm_compute. lia.
    + by rewrite lookup_singleton_ne in Hds.
Defined.

(** ** The diamond *)

Example diamond_store_edges :
  dependencies diamond_store
  = {[ baseAtom := [leftPath; rightPath]; leftPath := [joinedAtom]; rightPath := [joinedAtom] ]}.
Proof. reflexivity. Qed.

Lemma filter_pair_ne (a b : atom_id) (cb : callback) (cbs : list callback) :
  a ≠ b → filter (λ e, e = (b, cb)) (map (pair a) cbs) = [].
Proof.
  intros Hne. induction cbs as [|c cbs IH]; simpl; [done|].
  rewrite filter_cons_False; [done|]. congruence.
Qed.

Lemma filter_pair_NoDup (a : atom_id) (cb : callback) (cbs : list callback) :
  NoDup cbs → cb ∈ cbs →
  length (filter (λ e, e = (a, cb)) (map (pair a) cbs)) = 1%nat.
Proof.
  induction 1 as [|c cbs Hc Hnd IH]; intros Hin; [by apply elem_of_nil in Hin|].
  simpl. destruct (decide (c = cb)) as [->|Hne].
  - rewrite filter_cons_True by done. simpl. f_equal.
    clear IH Hin Hnd. induction cbs as [|c cbs IH]; simpl; [done|].
    apply not_elem_of_cons in Hc as [Hne Hc].
    rewrite filter_cons_False by congruence. auto.
  - rewrite filter_cons_False by congruence.
    apply IH. apply elem_of_cons in Hin as [->|Hin]; done.
Qed.

Lemma calls_of_same s t a :
  subscriptions t = subscriptions s → calls_of t a = calls_of s a.
Proof. unfold calls_of. by intros ->. Qed.

Section Diamond.
Variables (source d1 d2 d : atom_id) (s : store).
Hypothesis source_primitive : is_primitive (atoms s !! source) = true.
Hypothesis source_dependents : dependencies s !! source = Some [d1; d2].
Hypothesis d1_dependents : dependencies s !! d1 = Some [d].
Hypothesis d2_dependents : dependencies s !! d2 = Some [d].
Hypothesis d_dependents : default [] (dependencies s !! d) = [].

Lemma diamond_write v fuel :
  setValue (2 + fuel) source (Plain v) s
  = (Returned tt,
     with_notified
       (notified s ++ calls_of s source ++ calls_of s d1 ++ calls_of s d
                   ++ calls_of s d2 ++ calls_of s d)
       (with_values (<[source := v]> (atomPrimitiveValues s)) s)).
Proof.
  assert (∀ t, dependencies t = dependencies s →
                 subscriptions t = subscriptions s →
                 updateReadonlyDerivedAtom (S fuel) d t
                 = (Returned tt, with_notified (notified t ++ calls_of s d) t))
    as Hd.
  { intros t Hdeps Hsubs. simpl. unfold bind, notify, forDependents. simpl.
    rewrite Hdeps, (calls_of_same s t) by done.
    destruct (dependencies s !! d) as [ds|]; [|done].
    simpl in d_dependents. by rewrite d_dependents. }
  assert (∀ m t, (m = d1 ∨ m = d2) → dependencies t = dependencies s →
                 subscriptions t = subscriptions s →
                 updateReadonlyDerivedAtom (S (S fuel)) m t
                 = (Returned tt,
                    with_notified
                      ((notified t ++ calls_of s m) ++ calls_of s d) t))
    as Hmid.
  { intros m t Hm Hdeps Hsubs.
    change (updateReadonlyDerivedAtom (S (S fuel)) m t)
      with ((notify m >> forDependents m (updateReadonlyDerivedAtom (S fuel))) t).
    unfold bind at 1. unfold notify, forDependents. cbn [fst snd dependencies with_notified].
    rewrite Hdeps.
    assert (dependencies s !! m = Some [d]) as -> by by destruct Hm as [->| ->].
    cbn [forEach]. unfold bind, ret. rewrite Hd by done.
    by rewrite (calls_of_same s t). }
  rewrite <- updateAtom_primitive by done.
  unfold updateAtom.
  destruct (atoms s !! source) as [[brand|read write]|]; try done.
  unfold updatePrimitiveAtom, bind at 1 2, ret, notify, forDependents.
  cbn [fst snd dependencies with_notified with_values].
  rewrite source_dependents. cbn [forEach]. unfold bind, ret.
  rewrite (Hmid d1) by auto. rewrite (Hmid d2) by auto.
  cbn [notified with_notified].
  rewrite (calls_of_same s (with_values _ s)) by done.
  by rewrite <- !(assoc_L (++)).
Qed.

(** C4. In a diamond [source → d1 → d], [source → d2 → d], one write to
    [source] returns once the fuel covers the two levels below it, after
    calling the callbacks of [source], [d1], [d], [d2], [d] in that order;
    each callback registered for [d] is called for [d] exactly twice. *)
Theorem diamond_notifies_twice v fuel cb :
  NoDup (default [] (subscriptions s !! d)) →
  cb ∈ default [] (subscriptions s !! d) →
  (setValue (2 + fuel) source (Plain v) s).1 = Returned tt
  ∧ notified (setValue (2 + fuel) source (Plain v) s).2
    = notified s ++ calls_of s source ++ calls_of s d1 ++ calls_of s d
                 ++ calls_of s d2 ++ calls_of s d
  ∧ times_notified d cb s (setValue (2 + fuel) source (Plain v) s).2 = 2%nat.
Proof.
  intros Hnd Hcb. rewrite diamond_write. split_and!; [done..|].
  unfold times_notified. cbn [snd notified with_notified].
  rewrite drop_app_length.
  assert (source ≠ d) as Hsd.
  { intros ->. rewrite source_dependents in d_dependents. done. }
  assert (d1 ≠ d) as H1d.
  { intros ->. rewrite d1_dependents in d_dependents. done. }
  assert (d2 ≠ d) as H2d.
  { intros ->. rewrite d2_dependents in d_dependents. done. }
  rewrite !filter_app, !length_app. unfold calls_of.
  rewrite (filter_pair_ne source), (filter_pair_ne d1), (filter_pair_ne d2) by done.
  by rewrite filter_pair_NoDup.
Qed.
End Diamond.

Lemma diamond_notifies_twice_witness :
  times_notified joinedAtom 7%positive diamond_store
    (setValue 2 baseAtom (Plain (VNum 1)) diamond_store).2 = 2%nat.
Proof.
  apply (diamond_notifies_twice baseAtom leftPath rightPath joinedAtom diamond_store
           eq_refl eq_refl eq_refl eq_refl eq_refl (VNum 1) 0 7%positive).
  - vm_compute. apply NoDup_cons. split; [|apply NoDup_singleton].
    intros H%list_elem_of_singleton. discriminate H.
  - vm_compute. apply list_elem_of_here.
Defined.

(** ** Reachable stores *)

Lemma getAtomValue_tracked_step fuel a : preserves tracked_step (getAtomValue fuel a).
Proof.
  intros s. split_and!.
  - by destruct (getAtomValue_frame fuel a s) as [-> _].
  - apply getAtomValue_computing.
  - intros x y [H|H]%getAtomValue_new_edges; auto.
Qed.

Lemma setValue_tracked_step fuel a nextValue :
  preserves tracked_step (setValue fuel a nextValue).
Proof.
  unfold setValue. apply bind_preserves; [apply _| |].
  - destruct nextValue as [v|fn]; [apply ret_preserves, _|].
    apply bind_preserves; [apply _ | apply getAtomValue_tracked_step |].
    intros prev. apply ret_preserves, _.
  - intros newValue s.
    destruct (atoms s !! a) as [[brand|read [write|]]|]; try reflexivity.
    + apply updateAtom_tracked_step.
    + apply run_write_preserves; [apply _ | |].
      * intros b s1. apply get_tracked_step.
      * intros b v. apply updateAtom_tracked_step.
Qed.

Lemma tracked_step_invariant s s' :
  tracked_step s s' →
  currentlyComputingAtom s = None → dependents_derived s →
  currentlyComputingAtom s' = None ∧ dependents_derived s'.
Proof.
  intros (Ha & Hc & He) Hnone Hdd. split; [congruence|].
  intros x y [H|[H|H]]%He; rewrite Ha; [by eapply Hdd | done | congruence].
Qed.

Lemma atom_invariant configOrRead write s :
  currentlyComputingAtom s = None → dependents_derived s →
  currentlyComputingAtom (atom configOrRead write s).2 = None
  ∧ dependents_derived (atom configOrRead write s).2.
Proof.
  intros Hnone Hdd.
  assert (atoms s !! fresh (dom (atoms s)) = None) as Hfresh.
  { apply not_elem_of_dom, is_fresh. }
  assert (∀ o y, is_derived (atoms s !! y) = true →
                 is_derived (<[fresh (dom (atoms s)) := o]> (atoms s) !! y) = true)
    as Hkeep.
  { intros o y Hy. rewrite lookup_insert_ne; [done|].
    intros <-. by rewrite Hfresh in Hy. }
  unfold atom. destruct configOrRead as [config|read]; simpl.
  - split; [done|]. intros x y Hxy. apply Hkeep. by apply (Hdd x y).
  - split; [done|]. intros x y Hxy. apply Hkeep. by apply (Hdd x y).
Qed.

Lemma reachable_invariant s :
  reachable s → currentlyComputingAtom s = None ∧ dependents_derived s.
Proof.
  induction 1 as [|s c w _ [IHc IHd]|s fuel a _ [IHc IHd]|s fuel a _ [IHc IHd]
                  |s fuel a nv _ [IHc IHd]|s a cb _ [IHc IHd]|s a cb _ [IHc IHd]].
  - split; [done|]. intros a d (ds & Hds & _). simpl in Hds. by rewrite lookup_empty in Hds.
  - by apply atom_invariant.
  - by apply (tracked_step_invariant s _ (getAtomValue_tracked_step fuel a s)).
  - by apply (tracked_step_invariant s _ (get_tracked_step fuel a s)).
  - by apply (tracked_step_invariant s _ (setValue_tracked_step fuel a nv s)).
  - done.
  - unfold unsubscribe. by destruct (subscriptions s !! a).
Qed.

(** C8. In a reachable store every dependent recorded in the dependency
    graph is a derived atom of the atom table, hence not a primitive one. *)
Theorem dependents_are_derived s a d :
  reachable s → has_edge s a d →
  is_derived (atoms s !! d) = true ∧ is_primitive (atoms s !! d) = false.
Proof.
  intros [_ Hdd]%reachable_invariant Hedge.
  specialize (Hdd a d Hedge).
  by destruct (atoms s !! d) as [[brand|read write]|].
Qed.

Lemma app_store_reachable : reachable app_store.
Proof. repeat apply reach_atom. apply reach_empty. Qed.

Lemma dependents_are_derived_witness :
  is_derived (atoms (getSnapshot 3 tripledAtom app_store).2 !! tripledAtom) = true
  ∧ is_primitive (atoms (getSnapshot 3 tripledAtom app_store).2 !! tripledAtom) = false.
Proof.
  apply (dependents_are_derived (getSnapshot 3 tripledAtom app_store).2
           doubledAtom tripledAtom).
  - apply reach_getSnapshot, app_store_reachable.
  - exists [tripledAtom]. split; [reflexivity | apply list_elem_of_here].
Defined.

(** * Further properties *)

(** ** Subscribing and unsubscribing *)

Lemma subscribers_subscribe a cb s b :
  subscribers (subscribe a cb s) b
  = if decide (b = a) then set_add cb (subscribers s a) else subscribers s b.
Proof.
  unfold subscribers, subscribe. simpl. case_decide as Hb.
  - subst b. by rewrite lookup_insert_eq.
  - by rewrite lookup_insert_ne.
Qed.

Lemma subscribers_unsubscribe a cb s b :
  subscribers (unsubscribe a cb s) b
  = if decide (b = a) then set_delete cb (subscribers s a) else subscribers s b.
Proof.
  unfold subscribers, unsubscribe.
  destruct (subscriptions s !! a) as [cbs|] eqn:Ha; simpl.
  - case_decide as Hb.
    + subst b. by rewrite lookup_insert_eq.
    + by rewrite lookup_insert_ne.
  - case_decide as Hb; [|done]. subst b. by rewrite Ha.
Qed.

Lemma elem_of_set_delete (x y : positive) (l : list positive) :
  y ∈ set_delete x l ↔ y ≠ x ∧ y ∈ l.
Proof. unfold set_delete. by rewrite list_elem_of_filter. Qed.

Lemma set_delete_absent (x : positive) (l : list positive) :
  x ∉ l → set_delete x l = l.
Proof.
  intros Hx. unfold set_delete. induction l as [|y l IH]; [done|].
  apply not_elem_of_cons in Hx as [Hne Hx].
  rewrite filter_cons_True by done. by rewrite IH.
Qed.

Lemma set_delete_add_absent (x : positive) (l : list positive) :
  x ∉ l → set_delete x (set_add x l) = l.
Proof.
  intros Hx. unfold set_add. rewrite decide_False by done.
  unfold set_delete. rewrite filter_app, filter_cons_False by (intros H; by apply H).
  rewrite filter_nil, app_nil_r. by apply set_delete_absent.
Qed.

(** X1. [subscribe] adds the callback to the set of the atom, once: the
    callbacks registered for the atom afterwards are the old ones and the
    new one, a second [subscribe] of the same callback changes nothing, and
    no other atom's set and no other part of the store is touched. *)
Theorem subscribe_registers_once a cb s :
  (∀ c, c ∈ subscribers (subscribe a cb s) a ↔ c = cb ∨ c ∈ subscribers s a)
  ∧ subscribe a cb (subscribe a cb s) = subscribe a cb s
  ∧ (NoDup (subscribers s a) → NoDup (subscribers (subscribe a cb s) a))
  ∧ (∀ b, b ≠ a → subscribers (subscribe a cb s) b = subscribers s b)
  ∧ atoms (subscribe a cb s) = atoms s
  ∧ atomPrimitiveValues (subscribe a cb s) = atomPrimitiveValues s
  ∧ dependencies (subscribe a cb s) = dependencies s
  ∧ notified (subscribe a cb s) = notified s.
Proof.
  split_and!.
  - intros c. rewrite subscribers_subscribe, decide_True by done.
    apply elem_of_set_add.
  - unfold subscribe. simpl. rewrite lookup_insert_eq. simpl.
    unfold with_subscriptions. simpl. f_equal.
    rewrite insert_insert_eq. f_equal.
    unfold set_add at 1. rewrite decide_True; [done|].
    apply elem_of_set_add. by left.
  - intros Hnd. rewrite subscribers_subscribe, decide_True by done.
    by apply NoDup_set_add.
  - intros b Hb. by rewrite subscribers_subscribe, decide_False.
  - done.
  - done.
  - done.
  - done.
Qed.

Lemma subscribe_registers_once_witness :
  subscribers (subscribe countAtom 7%positive counter_store) countAtom
  = [7%positive; 8%positive]
  ∧ NoDup (subscribers (subscribe countAtom 9%positive counter_store) countAtom).
Proof.
  split; [reflexivity|].
  apply (subscribe_registers_once countAtom 9%positive counter_store).
  vm_compute. apply NoDup_cons. split; [|apply NoDup_singleton].
  intros H%list_elem_of_singleton. discriminate H.
Defined.

(** X2. The cleanup function removes exactly its callback from the set of
    its atom: that callback is no longer registered, every other callback
    of the atom is registered exactly when it was before, and the sets of
    the other atoms are kept.  Removing a callback that was added to a set
    it was not in gives back the set as it was. *)
Theorem unsubscribe_removes_exactly a cb s :
  (cb ∉ subscribers (unsubscribe a cb s) a)
  ∧ (∀ c, c ≠ cb →
          (c ∈ subscribers (unsubscribe a cb s) a ↔ c ∈ subscribers s a))
  ∧ (∀ b, b ≠ a → subscribers (unsubscribe a cb s) b = subscribers s b)
  ∧ (cb ∉ subscribers s a →
     subscribers (unsubscribe a cb (subscribe a cb s)) a = subscribers s a).
Proof.
  split_and!.
  - rewrite subscribers_unsubscribe, decide_True by done.
    rewrite elem_of_set_delete. tauto.
  - intros c Hc. rewrite subscribers_unsubscribe, decide_True by done.
    rewrite elem_of_set_delete. tauto.
  - intros b Hb. by rewrite subscribers_unsubscribe, decide_False.
  - intros Hcb. rewrite subscribers_unsubscribe, decide_True by done.
    rewrite subscribers_subscribe, decide_True by done.
    by apply set_delete_add_absent.
Qed.

Lemma unsubscribe_removes_exactly_witness :
  (8%positive ∈ subscribers (unsubscribe countAtom 7%positive counter_store) countAtom
   ↔ 8%positive ∈ subscribers counter_store countAtom)
  ∧ subscribers (unsubscribe countAtom 9%positive
                   (subscribe countAtom 9%positive counter_store)) countAtom
    = subscribers counter_store countAtom.
Proof.
  split.
  - apply (unsubscribe_removes_exactly countAtom 7%positive counter_store).
    intros H. discriminate H.
  - apply (unsubscribe_removes_exactly countAtom 9%positive counter_store).
    vm_compute. intros H. apply elem_of_cons in H as [H|H]; [discriminate H|].
    apply list_elem_of_singleton in H. discriminate H.
Defined.

(** X3. Calling the cleanup function a second time changes nothing, and
    calling it for a callback that is not registered returns the store as
    it is. *)
Theorem unsubscribe_twice a cb s :
  unsubscribe a cb (unsubscribe a cb s) = unsubscribe a cb s
  ∧ (cb ∉ subscribers s a → unsubscribe a cb s = s).
Proof.
  assert (∀ t, cb ∉ subscribers t a → unsubscribe a cb t = t) as Habsent.
  { intros t Hcb. unfold subscribers in Hcb. unfold unsubscribe.
    destruct (subscriptions t !! a) as [cbs|] eqn:Ha; [|done]. simpl in Hcb.
    rewrite set_delete_absent by done.
    destruct t as [h vs cc subs deps log]. simpl in *.
    unfold with_subscriptions. simpl. f_equal. by apply insert_id. }
  split; [|apply Habsent].
  apply Habsent. rewrite subscribers_unsubscribe, decide_True by done.
  rewrite elem_of_set_delete. tauto.
Qed.

Lemma unsubscribe_twice_witness :
  unsubscribe countAtom 9%positive counter_store = counter_store.
Proof.
  apply (unsubscribe_twice countAtom 9%positive counter_store).
  vm_compute. intros H. apply elem_of_cons in H as [H|H]; [discriminate H|].
  apply list_elem_of_singleton in H. discriminate H.
Defined.

(** ** What a write calls *)

#[local] Instance calls_registered_preorder : PreOrder calls_registered.
Proof.
  split.
  - intros s. split; [done|]. exists []. split; [by rewrite app_nil_r|].
    intros x c H. by apply elem_of_nil in H.
  - intros s1 s2 s3 (Hs & l & Hl & Hin) (Hs' & l' & Hl' & Hin').
    split; [congruence|]. exists (l ++ l'). split.
    + by rewrite Hl', Hl, (assoc_L (++)).
    + intros x c [H|H]%elem_of_app; [by apply Hin|].
      specialize (Hin' x c H). unfold subscribers in *. by rewrite <- Hs.
Qed.

Lemma read_frame_calls_registered s s' :
  read_frame s s' → calls_registered s s'.
Proof.
  intros (_ & _ & Hs & Hl). split; [done|]. exists [].
  split; [by rewrite app_nil_r|]. intros x c H. by apply elem_of_nil in H.
Qed.

Lemma notify_calls_registered a : preserves calls_registered (notify a).
Proof.
  intros s. split; [done|]. exists (calls_of s a). split; [done|].
  intros x c (c' & [= -> ->] & Hc)%list_elem_of_fmap. done.
Qed.

Lemma updateReadonlyDerivedAtom_calls_registered fuel a :
  preserves calls_registered (updateReadonlyDerivedAtom fuel a).
Proof.
  revert a. induction fuel as [|n IH]; intros a; simpl.
  - intros s. reflexivity.
  - apply bind_preserves; [apply _ | apply notify_calls_registered |].
    intros _. apply forDependents_preserves; [apply _ | done].
Qed.

Lemma updateAtom_calls_registered fuel a v :
  preserves calls_registered (updateAtom fuel a v).
Proof.
  intros s. unfold updateAtom.
  destruct (atoms s !! a) as [[brand|read write]|]; [| |reflexivity].
  - unfold updatePrimitiveAtom, bind at 1, ret.
    change (calls_registered s
              ((notify a >> forDependents a (updateReadonlyDerivedAtom fuel))
                 (with_values (<[a := v]> (atomPrimitiveValues s)) s)).2).
    assert (calls_registered s
              (with_values (<[a := v]> (atomPrimitiveValues s)) s)) as H1.
    { split; [done|]. exists []. split; [by rewrite app_nil_r|].
      intros x c H. by apply elem_of_nil in H. }
    etrans; [exact H1|].
    apply (bind_preserves calls_registered); [apply notify_calls_registered|].
    intros _. apply forDependents_preserves; [apply _|].
    apply updateReadonlyDerivedAtom_calls_registered.
  - apply updateReadonlyDerivedAtom_calls_registered.
Qed.

Lemma setValue_calls_registered fuel a nextValue :
  preserves calls_registered (setValue fuel a nextValue).
Proof.
  unfold setValue. apply bind_preserves; [apply _| |].
  - destruct nextValue as [v|fn]; [apply ret_preserves, _|].
    apply bind_preserves; [apply _ | | intros prev; apply ret_preserves, _].
    intros s. apply read_frame_calls_registered, getAtomValue_frame.
  - intros newValue s.
    destruct (atoms s !! a) as [[brand|read [write|]]|]; try reflexivity.
    + apply updateAtom_calls_registered.
    + apply run_write_preserves; [apply _ | |].
      * intros b s1. apply read_frame_calls_registered, get_frame.
      * intros b v. apply updateAtom_calls_registered.
Qed.

Lemma new_calls_app s s' l :
  notified s' = notified s ++ l → new_calls s s' = l.
Proof. intros Hl. unfold new_calls. by rewrite Hl, drop_app_length. Qed.

Lemma times_notified_absent a cb s s' :
  (a, cb) ∉ new_calls s s' → times_notified a cb s s' = 0%nat.
Proof.
  intros Hn. unfold times_notified. fold (new_calls s s').
  induction (new_calls s s') as [|e l IH]; [done|].
  apply not_elem_of_cons in Hn as [Hne Hn].
  rewrite filter_cons_False by done. by apply IH.
Qed.

(** X4. A write calls registered callbacks only: it keeps the
    subscriptions, and each call it adds to the log is for an atom and a
    callback registered for that atom.  So a callback that has been
    unsubscribed from an atom is not called for it by any later write. *)
Theorem write_calls_registered_callbacks fuel a nextValue s :
  calls_registered s (setValue fuel a nextValue s).2
  ∧ ∀ b cb, times_notified b cb (unsubscribe b cb s)
              (setValue fuel a nextValue (unsubscribe b cb s)).2 = 0%nat.
Proof.
  split; [apply setValue_calls_registered|].
  intros b cb. apply times_notified_absent.
  destruct (setValue_calls_registered fuel a nextValue (unsubscribe b cb s))
    as (_ & l & Hl & Hin).
  rewrite (new_calls_app _ _ l Hl). intros H%Hin.
  rewrite subscribers_unsubscribe, decide_True in H by done.
  apply elem_of_set_delete in H as [H _]. done.
Qed.

(** ** Which atoms a write reaches *)

Lemma has_edge_same_dependencies s t x y :
  dependencies t = dependencies s → has_edge t x y → has_edge s x y.
Proof. intros Hd. unfold has_edge. by rewrite Hd. Qed.

Lemma calls_of_elem s a x c :
  (x, c) ∈ calls_of s a ↔ x = a ∧ c ∈ subscribers s a.
Proof.
  unfold calls_of, subscribers. rewrite list_elem_of_fmap. split.
  - intros (c' & [= -> ->] & Hc). done.
  - intros [-> Hc]. by exists c.
Qed.

Lemma forEach_calls_from s (f : atom_id -> M unit) :
  (∀ y, preserves only_notified (f y)) →
  (∀ y t, dependencies t = dependencies s →
     ∃ l, notified (f y t).2 = notified t ++ l ∧ calls_from s [y] l) →
  ∀ ds t, dependencies t = dependencies s →
    ∃ l, notified (forEach f ds t).2 = notified t ++ l ∧ calls_from s ds l.
Proof.
  intros Hframe Hf. induction ds as [|y ds IH]; intros t Ht; simpl.
  - exists []. split; [by rewrite app_nil_r|]. intros x c H. by apply elem_of_nil in H.
  - unfold bind. destruct (Hf y t Ht) as (l1 & Hl1 & Hfrom1).
    destruct (Hframe y t) as (_ & _ & _ & _ & Hdeps & _).
    assert (∃ l, notified (f y t).2 = notified t ++ l ∧ calls_from s (y :: ds) l)
      as Hstop.
    { exists l1. split; [done|]. intros x c (z & ->%list_elem_of_singleton & Hz)%Hfrom1.
      exists y. split; [apply list_elem_of_here | done]. }
    destruct (f y t) as [[[]|e|] t1]; simpl in *; try done.
    destruct (IH t1) as (l2 & Hl2 & Hfrom2); [congruence|].
    exists (l1 ++ l2). split; [by rewrite Hl2, Hl1, (assoc_L (++))|].
    intros x c [H|H]%elem_of_app.
    + destruct (Hfrom1 x c H) as (z & ->%list_elem_of_singleton & Hz).
      exists y. split; [apply list_elem_of_here | done].
    + destruct (Hfrom2 x c H) as (z & Hz & Hreach).
      exists z. split; [by apply list_elem_of_further | done].
Qed.

Lemma forDependents_calls_from s a (f : atom_id -> M unit) :
  (∀ y, preserves only_notified (f y)) →
  (∀ y t, dependencies t = dependencies s →
     ∃ l, notified (f y t).2 = notified t ++ l ∧ calls_from s [y] l) →
  ∀ t, dependencies t = dependencies s →
    ∃ l, notified (forDependents a f t).2 = notified t ++ l
         ∧ calls_from s (default [] (dependencies s !! a)) l.
Proof.
  intros Hframe Hf t Ht. unfold forDependents. rewrite Ht.
  destruct (dependencies s !! a) as [ds|]; simpl.
  - by apply forEach_calls_from.
  - exists []. split; [by rewrite app_nil_r|]. intros x c H. by apply elem_of_nil in H.
Qed.

Lemma calls_from_dependents s a l :
  calls_from s (default [] (dependencies s !! a)) l →
  ∀ x c, (x, c) ∈ l → ∃ y, has_edge s a y ∧ rtc (has_edge s) y x.
Proof.
  intros Hfrom x c (y & Hy & Hreach)%Hfrom. exists y. split; [|done].
  destruct (dependencies s !! a) as [ds|] eqn:Hds; simpl in Hy.
  - by exists ds.
  - by apply elem_of_nil in Hy.
Qed.

Lemma updateReadonlyDerivedAtom_calls_from s fuel :
  ∀ a t, dependencies t = dependencies s →
    ∃ l, notified (updateReadonlyDerivedAtom fuel a t).2 = notified t ++ l
         ∧ calls_from s [a] l.
Proof.
  induction fuel as [|n IH]; intros a t Ht.
  - exists []. split; [by rewrite app_nil_r|]. intros x c H. by apply elem_of_nil in H.
  - simpl. unfold bind, notify. simpl.
    destruct (forDependents_calls_from s a (updateReadonlyDerivedAtom n)
                (updateReadonlyDerivedAtom_only_notified n) IH
                (with_notified (notified t ++ calls_of t a) t) Ht)
      as (l & Hl & Hfrom).
    exists (calls_of t a ++ l). split; [by rewrite Hl, (assoc_L (++))|].
    intros x c [H|H]%elem_of_app.
    + apply calls_of_elem in H as [-> _].
      exists a. split; [apply list_elem_of_here | done].
    + destruct (calls_from_dependents s a l Hfrom x c H) as (y & Hy & Hreach).
      exists a. split; [apply list_elem_of_here|]. by eapply rtc_l.
Qed.

(** The calls of a write to a primitive atom: its own callbacks, then calls
    for atoms below its dependents. *)
Lemma updatePrimitiveAtom_calls fuel a v s :
  ∃ l, notified (updatePrimitiveAtom fuel a v s).2
       = notified s ++ calls_of s a ++ l
       ∧ ∀ x c, (x, c) ∈ l → ∃ y, has_edge s a y ∧ rtc (has_edge s) y x.
Proof.
  unfold updatePrimitiveAtom, bind at 1 2, ret, notify. simpl.
  destruct (forDependents_calls_from s a (updateReadonlyDerivedAtom fuel)
              (updateReadonlyDerivedAtom_only_notified fuel)
              (updateReadonlyDerivedAtom_calls_from s fuel)
              (with_notified
                 (notified s ++ calls_of (with_values (<[a:=v]> (atomPrimitiveValues s)) s) a)
                 (with_values (<[a:=v]> (atomPrimitiveValues s)) s)) eq_refl)
    as (l & Hl & Hfrom).
  exists l. split; [by rewrite Hl, (assoc_L (++))|].
  by apply calls_from_dependents.
Qed.

(** X5. The calls made by the setter [updateAtom] on atom [a] are for atoms
    that [a] reaches along the edges of the dependency graph (itself
    included), whatever the fuel: an atom outside that part of the graph is
    not notified. *)
Theorem updateAtom_calls_reachable_atoms fuel a v s x c :
  (x, c) ∈ new_calls s (updateAtom fuel a v s).2 →
  rtc (has_edge s) a x ∧ c ∈ subscribers s x.
Proof.
  intros Hin. split.
  - unfold updateAtom in Hin.
    destruct (atoms s !! a) as [[brand|read write]|].
    + destruct (updatePrimitiveAtom_calls fuel a v s) as (l & Hl & Hfrom).
      rewrite (new_calls_app _ _ _ Hl) in Hin.
      apply elem_of_app in Hin as [[-> _]%calls_of_elem|Hin]; [done|].
      destruct (Hfrom x c Hin) as (y & Hy & Hreach). by eapply rtc_l.
    + destruct (updateReadonlyDerivedAtom_calls_from s fuel a s eq_refl)
        as (l & Hl & Hfrom).
      rewrite (new_calls_app _ _ _ Hl) in Hin.
      by destruct (Hfrom x c Hin) as (y & ->%list_elem_of_singleton & Hreach).
    + simpl in Hin. unfold new_calls in Hin. rewrite drop_all in Hin.
      by apply elem_of_nil in Hin.
  - destruct (updateAtom_calls_registered fuel a v s) as (_ & l & Hl & Hreg).
    rewrite (new_calls_app _ _ _ Hl) in Hin. by apply Hreg.
Qed.

Lemma updateAtom_calls_reachable_atoms_witness :
  rtc (has_edge diamond_store) baseAtom joinedAtom
  ∧ 7%positive ∈ subscribers diamond_store joinedAtom.
Proof.
  apply (updateAtom_calls_reachable_atoms 2 baseAtom (VNum 1) diamond_store).
  vm_compute. apply list_elem_of_here.
Defined.

Lemma new_calls_split s t u :
  notified s `prefix_of` notified t → notified t `prefix_of` notified u →
  new_calls s u = new_calls s t ++ new_calls t u.
Proof.
  intros [k1 Hk1] [k2 Hk2].
  rewrite (new_calls_app s t k1 Hk1), (new_calls_app t u k2 Hk2).
  apply new_calls_app. by rewrite Hk2, Hk1, (assoc_L (++)).
Qed.

Lemma only_notified_prefix s t : only_notified s t → notified s `prefix_of` notified t.
Proof. by intros (_&_&_&_&_&?). Qed.

Lemma forEach_calls_all s (f : atom_id -> M unit) (e : atom_id * callback) :
  (∀ y, preserves only_notified (f y)) →
  ∀ ds,
    (∀ y t, y ∈ ds → dependencies t = dependencies s → (f y t).1 = Returned tt) →
    ∀ t y, dependencies t = dependencies s → subscriptions t = subscriptions s →
      y ∈ ds →
      (∀ t', dependencies t' = dependencies s → subscriptions t' = subscriptions s →
             e ∈ new_calls t' (f y t').2) →
      e ∈ new_calls t (forEach f ds t).2.
Proof.
  intros Hframe. induction ds as [|y0 ds IH]; intros Hret t y Hd Hs Hy He.
  { by apply elem_of_nil in Hy. }
  simpl. unfold bind.
  pose proof (Hret y0 t (list_elem_of_here _ _) Hd) as Hy0.
  pose proof (Hframe y0 t) as Hfr.
  pose proof (forEach_preserves only_notified f ds Hframe (f y0 t).2) as Hrest.
  apply elem_of_cons in Hy as [->|Hy].
  - specialize (He t Hd Hs).
    destruct (f y0 t) as [o t1]. simpl in *. subst o.
    rewrite (new_calls_split t t1) by by apply only_notified_prefix.
    apply elem_of_app. by left.
  - destruct (f y0 t) as [o t1]. simpl in *. subst o.
    rewrite (new_calls_split t t1) by by apply only_notified_prefix.
    apply elem_of_app. right. destruct Hfr as (_&_&_&Hs1&Hd1&_).
    apply (IH (λ z t' Hz, Hret z t' (list_elem_of_further _ _ _ Hz)) t1 y);
      [congruence | congruence | done | done].
Qed.

(** On a graph with ranks, propagation from [a] with enough fuel calls
    every callback of every atom that [a] reaches. *)
Lemma updateReadonlyDerivedAtom_calls_all (rank : atom_id -> nat) s :
  (∀ x y, has_edge s x y → (rank y < rank x)%nat) →
  ∀ fuel a t, (rank a < fuel)%nat →
    dependencies t = dependencies s → subscriptions t = subscriptions s →
    ∀ x c, rtc (has_edge s) a x → c ∈ subscribers s x →
      (x, c) ∈ new_calls t (updateReadonlyDerivedAtom fuel a t).2.
Proof.
  intros Hrank. induction fuel as [|n IH]; intros a t Ha Hd Hs x c Hreach Hc; [lia|].
  pose proof (updateReadonlyDerivedAtom_only_notified (S n) a t) as Hall.
  simpl in *. unfold bind, notify in *. simpl in *.
  set (t1 := with_notified (notified t ++ calls_of t a) t) in *.
  pose proof (forDependents_preserves only_notified a (updateReadonlyDerivedAtom n)
                (updateReadonlyDerivedAtom_only_notified n) t1) as Hrest.
  rewrite (new_calls_split t t1); [|by apply prefix_app_r | by apply only_notified_prefix].
  apply elem_of_app. apply rtc_inv in Hreach as [->|(y & Hy & Hreach)].
  - left. rewrite (new_calls_app t t1 (calls_of t x)) by done.
    apply calls_of_elem. split; [done|]. unfold subscribers in *. by rewrite Hs.
  - right. destruct Hy as (ds & Hds & Hy). unfold forDependents.
    change (dependencies t1) with (dependencies t). rewrite Hd, Hds.
    assert (∀ z, z ∈ ds → (rank z < n)%nat) as Hsmall.
    { intros z Hz. assert (rank z < rank a)%nat; [|lia]. apply Hrank. by exists ds. }
    apply (forEach_calls_all s _ _ (updateReadonlyDerivedAtom_only_notified n) ds)
      with (y := y); [|done|done|done|].
    + intros z t' Hz Ht'.
      apply (updateReadonlyDerivedAtom_returns rank s Hrank); [by apply Hsmall | done].
    + intros t' Hd' Hs'. apply IH; auto.
Qed.

(** X6. When the dependency graph has ranks that decrease along its edges
    and the fuel covers the rank of a primitive atom, a write to that atom
    returns, and it has called every callback registered for the atom and
    for every atom the atom reaches in the graph. *)
Theorem write_notifies_all_reachable (rank : atom_id -> nat) fuel a v s x c :
  (∀ x y, has_edge s x y → (rank y < rank x)%nat) →
  (rank a ≤ fuel)%nat →
  is_primitive (atoms s !! a) = true →
  rtc (has_edge s) a x → c ∈ subscribers s x →
  (setValue fuel a (Plain v) s).1 = Returned tt
  ∧ (x, c) ∈ new_calls s (setValue fuel a (Plain v) s).2.
Proof.
  intros Hrank Ha Hprim Hreach Hc.
  rewrite <- updateAtom_primitive by done. unfold updateAtom.
  destruct (atoms s !! a) as [[brand|read write]|]; try done.
  split; [by apply (updatePrimitiveAtom_returns rank)|].
  set (s0 := with_values (<[a:=v]> (atomPrimitiveValues s)) s).
  set (s1 := with_notified (notified s ++ calls_of s a) s0).
  change ((x, c) ∈ new_calls s
            (forDependents a (updateReadonlyDerivedAtom fuel) s1).2).
  pose proof (forDependents_preserves only_notified a (updateReadonlyDerivedAtom fuel)
                (updateReadonlyDerivedAtom_only_notified fuel) s1) as Hrest.
  rewrite (new_calls_split s s1); [|by apply prefix_app_r | by apply only_notified_prefix].
  apply elem_of_app. apply rtc_inv in Hreach as [Heq|(y & Hy & Hreach)].
  - left. subst x. rewrite (new_calls_app s s1 (calls_of s a)) by done.
    by apply calls_of_elem.
  - right. destruct Hy as (ds & Hds & Hy). unfold forDependents.
    change (dependencies s1) with (dependencies s). rewrite Hds.
    assert (∀ z, z ∈ ds → (rank z < fuel)%nat) as Hsmall.
    { intros z Hz. assert (rank z < rank a)%nat; [|lia]. apply Hrank. by exists ds. }
    apply (forEach_calls_all s _ _ (updateReadonlyDerivedAtom_only_notified fuel) ds)
      with (y := y); [|done|done|done|].
    + intros z t' Hz Ht'.
      apply (updateReadonlyDerivedAtom_returns rank s Hrank); [by apply Hsmall | done].
    + intros t' Hd' Hs'.
      by apply (updateReadonlyDerivedAtom_calls_all rank s Hrank); auto.
Qed.

Lemma app_rendered_rank x y :
  has_edge app_rendered x y → (app_rank y < app_rank x)%nat.
Proof.
  intros (ds & Hds & Hy).
  change (dependencies app_rendered)
    with ({[ countAtom := [doubledAtom]; doubledAtom := [tripledAtom] ]}
          : gmap positive (list positive)) in Hds.
  destruct (decide (x = countAtom)) as [->|Hx1].
  - rewrite lookup_insert_eq in Hds. injection Hds as <-.
    apply list_elem_of_singleton in Hy as ->. vm_compute. lia.
  - rewrite lookup_insert_ne in Hds by done.
    destruct (decide (x = doubledAtom)) as [->|Hx2].
    + rewrite lookup_singleton_eq in Hds. injection Hds as <-.
      apply list_elem_of_singleton in Hy as ->. vm_compute. lia.
    + by rewrite lookup_singleton_ne in Hds.
Qed.

Lemma write_notifies_all_reachable_witness :
  (setValue 2 countAtom (Plain (VNum 1)) triple_view_store).1 = Returned tt
  ∧ (tripledAtom, 9%positive)
    ∈ new_calls triple_view_store
        (setValue 2 countAtom (Plain (VNum 1)) triple_view_store).2.
Proof.
  apply (write_notifies_all_reachable app_rank 2 countAtom (VNum 1)
           triple_view_store tripledAtom 9%positive).
  - exact app_rendered_rank.
  - vm_compute. lia.
  - reflexivity.
  - apply (rtc_l _ _ doubledAtom).
    + exists [doubledAtom]. split; [reflexivity | apply list_elem_of_here].
    + apply rtc_once. exists [tripledAtom].
      split; [reflexivity | apply list_elem_of_here].
  - vm_compute. apply list_elem_of_here.
Defined.

(** ** Invariants of the reachable stores *)

#[local] Instance values_step_preorder : PreOrder values_step.
Proof.
  split.
  - intros s. split; [done|]. intros a. by left.
  - intros s1 s2 s3 (Ha & H12) (Ha' & H23). split; [congruence|].
    intros a. destruct (H23 a) as [Heq|[Hp Hs]].
    + rewrite Heq. apply H12.
    + right. by rewrite <- Ha.
Qed.

Lemma read_frame_values_step s s' : read_frame s s' → values_step s s'.
Proof. intros (Ha & Hv & _). split; [done|]. intros a. left. by rewrite Hv. Qed.

Lemma updateAtom_values_step fuel a v : preserves values_step (updateAtom fuel a v).
Proof.
  intros s. destruct (updateAtom_write_frame fuel a v s) as (Ha & _).
  split; [done|]. intros b. rewrite updateAtom_values.
  destruct (is_primitive (atoms s !! a)) eqn:Hp; [|by left].
  destruct (decide (b = a)) as [->|Hb].
  - right. by rewrite lookup_insert_eq.
  - left. by rewrite lookup_insert_ne.
Qed.

Lemma setValue_values_step fuel a nextValue :
  preserves values_step (setValue fuel a nextValue).
Proof.
  unfold setValue. apply bind_preserves; [apply _| |].
  - destruct nextValue as [v|fn]; [apply ret_preserves, _|].
    apply bind_preserves; [apply _ | | intros prev; apply ret_preserves, _].
    intros s. apply read_frame_values_step, getAtomValue_frame.
  - intros newValue s.
    destruct (atoms s !! a) as [[brand|read [write|]]|]; try reflexivity.
    + apply updateAtom_values_step.
    + apply run_write_preserves; [apply _ | |].
      * intros b s1. apply read_frame_values_step, get_frame.
      * intros b v. apply updateAtom_values_step.
Qed.

Lemma reachable_subscribers_NoDup s :
  reachable s → ∀ a, NoDup (subscribers s a).
Proof.
  induction 1 as [|s c w _ IH|s fuel a _ IH|s fuel a _ IH
                  |s fuel a nv _ IH|s a cb _ IH|s a cb _ IH]; intros b.
  - apply NoDup_nil_2.
  - unfold atom. destruct c; apply IH.
  - unfold subscribers, getSnapshot.
    destruct (getAtomValue_frame fuel a s) as (_ & _ & -> & _). apply IH.
  - unfold subscribers. destruct (get_frame fuel a s) as (_ & _ & -> & _).
    apply IH.
  - unfold subscribers.
    destruct (setValue_calls_registered fuel a nv s) as (-> & _). apply IH.
  - rewrite subscribers_subscribe. case_decide; [|done]. by apply NoDup_set_add.
  - rewrite subscribers_unsubscribe. case_decide; [|done].
    unfold set_delete. by apply NoDup_filter.
Qed.

Lemma reachable_values s :
  reachable s →
  ∀ a, is_Some (atomPrimitiveValues s !! a) ↔ is_primitive (atoms s !! a) = true.
Proof.
  assert (∀ u u', values_step u u' →
            (∀ a, is_Some (atomPrimitiveValues u !! a)
                  ↔ is_primitive (atoms u !! a) = true) →
            ∀ a, is_Some (atomPrimitiveValues u' !! a)
                 ↔ is_primitive (atoms u' !! a) = true) as Hstep.
  { intros u u' (Ha & Hv) IH a. rewrite Ha. destruct (Hv a) as [->|[Hp Hs]]; [done|].
    by rewrite Hp. }
  induction 1 as [|t c w Hr IH|t fuel a _ IH|t fuel a _ IH
                  |t fuel a nv _ IH|t a cb _ IH|t a cb _ IH]; intros b.
  - simpl. rewrite !lookup_empty. split; [by intros []|done].
  - assert (atoms t !! fresh (dom (atoms t)) = None) as Hfresh.
    { apply not_elem_of_dom, is_fresh. }
    unfold atom. destruct c as [config|read]; simpl.
    + destruct (decide (b = fresh (dom (atoms t)))) as [->|Hb].
      * by rewrite !lookup_insert_eq.
      * rewrite !lookup_insert_ne by done. apply IH.
    + destruct (decide (b = fresh (dom (atoms t)))) as [->|Hb].
      * rewrite lookup_insert_eq. simpl. split; [|done].
        intros Hs%IH. by rewrite Hfresh in Hs.
      * rewrite lookup_insert_ne by done. apply IH.
  - apply (Hstep t); [|done].
    apply read_frame_values_step, (getAtomValue_frame fuel a t).
  - apply (Hstep t); [|done]. apply read_frame_values_step, (get_frame fuel a t).
  - apply (Hstep t); [apply setValue_values_step | done].
  - apply IH.
  - unfold unsubscribe. destruct (subscriptions t !! a); apply IH.
Qed.

(** X7. In a reachable store the value store has an entry for an atom
    exactly when the atom is primitive: a primitive atom always has a
    value, a derived atom never has one, and so the read of a primitive
    atom returns the value of its entry. *)
Theorem value_store_holds_the_primitive_atoms s a :
  reachable s →
  (is_Some (atomPrimitiveValues s !! a) ↔ is_primitive (atoms s !! a) = true)
  ∧ (is_derived (atoms s !! a) = true → atomPrimitiveValues s !! a = None)
  ∧ (is_primitive (atoms s !! a) = true →
     ∃ v, atomPrimitiveValues s !! a = Some v
          ∧ ∀ n, getAtomValue (S n) a s = (Returned v, s)).
Proof.
  intros Hr. pose proof (reachable_values s Hr a) as Hiff. split_and!.
  - done.
  - intros Hd. destruct (atomPrimitiveValues s !! a) as [v|] eqn:Hv; [|done].
    assert (is_primitive (atoms s !! a) = true) as Hp by (apply Hiff; eauto).
    by destruct (atoms s !! a) as [[brand|read write]|].
  - intros Hp. destruct (proj2 Hiff Hp) as [v Hv]. exists v. split; [done|].
    intros n. rewrite getAtomValue_unfold, Hv.
    by destruct (atoms s !! a) as [[brand|read write]|].
Qed.

Lemma app_rendered_reachable : reachable app_rendered.
Proof. apply reach_getSnapshot, app_store_reachable. Qed.

Lemma counter_store_reachable : reachable counter_store.
Proof. do 2 apply reach_subscribe. apply app_rendered_reachable. Qed.

Lemma value_store_holds_the_primitive_atoms_witness :
  atomPrimitiveValues app_rendered !! tripledAtom = None
  ∧ is_Some (atomPrimitiveValues app_rendered !! countAtom).
Proof.
  split.
  - apply (value_store_holds_the_primitive_atoms app_rendered tripledAtom
             app_rendered_reachable). reflexivity.
  - apply (value_store_holds_the_primitive_atoms app_rendered countAtom
             app_rendered_reachable). reflexivity.
Defined.

(** X8. Between two calls from outside no atom is under computation, so a
    [get] issued from outside or by a write function records no edge for
    the atom it reads: it is the snapshot read. *)
Theorem reachable_get_is_untracked s fuel a :
  reachable s →
  currentlyComputingAtom s = None
  ∧ track a s = s
  ∧ get fuel a s = getAtomValue fuel a s.
Proof.
  intros [Hc _]%reachable_invariant.
  assert (track a s = s) as Ht by (unfold track; by rewrite Hc).
  split_and!; [done | done |]. unfold get. by rewrite Ht.
Qed.

Lemma reachable_get_is_untracked_witness :
  get 3 countAtom counter_store = getAtomValue 3 countAtom counter_store.
Proof.
  apply (reachable_get_is_untracked counter_store 3 countAtom).
  apply counter_store_reachable.
Defined.

(** X9. In a reachable store a write to a primitive atom calls each
    callback registered for that atom exactly once, whatever the fuel and
    whether or not the value changes: the propagation that follows only
    calls callbacks for derived atoms. *)
Theorem write_notifies_each_subscriber_once s fuel a v cb :
  reachable s →
  is_primitive (atoms s !! a) = true →
  cb ∈ subscribers s a →
  times_notified a cb s (setValue fuel a (Plain v) s).2 = 1%nat.
Proof.
  intros Hr Hp Hcb.
  pose proof (reachable_subscribers_NoDup s Hr a) as Hnd.
  destruct (reachable_invariant s Hr) as [_ Hdd].
  rewrite <- updateAtom_primitive by done. unfold updateAtom.
  destruct (atoms s !! a) as [[brand|read write]|] eqn:Ha; try done.
  destruct (updatePrimitiveAtom_calls fuel a v s) as (l & Hl & Hfrom).
  unfold times_notified. fold (new_calls s (updatePrimitiveAtom fuel a v s).2).
  rewrite (new_calls_app _ _ _ Hl), filter_app, length_app.
  unfold calls_of. rewrite filter_pair_NoDup by done.
  assert ((a, cb) ∉ l) as Hnot.
  { intros (y & Hy & Hreach)%Hfrom.
    assert (is_derived (atoms s !! a) = true) as Hd; [|by rewrite Ha in Hd].
    apply rtc_inv_r in Hreach as [->|(z & _ & Hz)]; by eapply Hdd. }
  assert (filter (λ e, e = (a, cb)) l = []) as ->; [|done].
  clear Hl Hfrom. induction l as [|e l IH]; [done|].
  apply not_elem_of_cons in Hnot as [Hne Hnot].
  rewrite filter_cons_False by done. by apply IH.
Qed.

Lemma write_notifies_each_subscriber_once_witness :
  times_notified countAtom 7%positive counter_store
    (setValue 2 countAtom (Plain (VNum 0)) counter_store).2 = 1%nat.
Proof.
  apply (write_notifies_each_subscriber_once counter_store 2 countAtom (VNum 0)
           7%positive counter_store_reachable).
  - reflexivity.
  - vm_compute. apply list_elem_of_here.
Defined.

(** ** What no call from outside undoes *)

Lemma setValue_edges_grow fuel a nextValue :
  preserves edges_grow (setValue fuel a nextValue).
Proof.
  assert (∀ b v, preserves edges_grow (updateAtom fuel b v)) as Hupdate.
  { intros b v s x y (ds & Hds & Hy).
    destruct (updateAtom_write_frame fuel b v s) as (_ & _ & _ & Hd).
    exists ds. by rewrite Hd. }
  unfold setValue. apply bind_preserves; [apply _| |].
  - destruct nextValue as [v|fn]; [apply ret_preserves, _|].
    apply bind_preserves; [apply _ | | intros prev; apply ret_preserves, _].
    intros s. apply getAtomValue_edges_grow.
  - intros newValue s.
    destruct (atoms s !! a) as [[brand|read [write|]]|]; try reflexivity.
    + apply Hupdate.
    + apply run_write_preserves; [apply _ | | done].
      intros b. apply (get_preserves edges_grow edges_grow_track edges_grow_computing).
Qed.

Lemma step_edges_grow s s' : step s s' → edges_grow s s'.
Proof.
  destruct 1 as [s c w|s fuel a|s fuel a|s fuel a nv|s a cb|s a cb].
  - unfold atom. destruct c; by intros x y H.
  - apply getAtomValue_edges_grow.
  - apply (get_preserves edges_grow edges_grow_track edges_grow_computing).
  - apply setValue_edges_grow.
  - by intros x y H.
  - unfold unsubscribe. destruct (subscriptions s !! a); by intros x y H.
Qed.

(** X10. No sequence of calls from outside removes an edge of the
    dependency graph: an edge recorded once is there for ever, also when
    the dependent has stopped reading the atom. *)
Theorem edges_are_never_removed s s' x y :
  rtc step s s' → has_edge s x y → has_edge s' x y.
Proof.
  induction 1 as [s|s t u Hst _ IH]; [done|].
  intros Hxy. by apply IH, (step_edges_grow s t).
Qed.

Lemma edges_are_never_removed_witness :
  (getSnapshot 3 choiceAtom choice_flipped).1 = Returned (VNum 1)
  ∧ has_edge choice_rendered_again rightAtom choiceAtom.
Proof.
  split; [reflexivity|].
  apply (edges_are_never_removed choice_rendered choice_rendered_again).
  - apply (rtc_l _ _ choice_flipped); [apply step_setValue|].
    apply rtc_once, step_getSnapshot.
  - exists [choiceAtom]. split; [reflexivity | apply list_elem_of_here].
Defined.

Lemma step_atoms s s' a o :
  step s s' → atoms s !! a = Some o → atoms s' !! a = Some o.
Proof.
  destruct 1 as [s c w|s fuel b|s fuel b|s fuel b nv|s b cb|s b cb]; intros Ha.
  - assert (a ≠ fresh (dom (atoms s))) as Hne.
    { intros ->. assert (atoms s !! fresh (dom (atoms s)) = None) as Hf.
      { apply not_elem_of_dom, is_fresh. }
      by rewrite Hf in Ha. }
    unfold atom. destruct c; simpl; by rewrite lookup_insert_ne.
  - unfold getSnapshot. by destruct (getAtomValue_frame fuel b s) as (-> & _).
  - by destruct (get_frame fuel b s) as (-> & _).
  - by destruct (setValue_values_step fuel b nv s) as (-> & _).
  - done.
  - unfold unsubscribe. by destruct (subscriptions s !! b).
Qed.

(** X11. No sequence of calls from outside deletes or changes an atom: a
    reference keeps its kind, its read function and its write function,
    and the constructor never reuses it. *)
Theorem atoms_are_never_changed s s' a o :
  rtc step s s' → atoms s !! a = Some o → atoms s' !! a = Some o.
Proof.
  induction 1 as [s|s t u Hst _ IH]; [done|].
  intros Ha. by apply IH, (step_atoms s t).
Qed.

Lemma atoms_are_never_changed_witness :
  atoms (atom (inl (VNum 7)) None choice_rendered_again).2 !! flagAtom
  = Some (PrimitiveAtom (VBool false)).
Proof.
  apply (atoms_are_never_changed choice_store).
  - apply (rtc_l _ _ choice_rendered); [apply step_getSnapshot|].
    apply (rtc_l _ _ choice_flipped); [apply step_setValue|].
    apply (rtc_l _ _ choice_rendered_again); [apply step_getSnapshot|].
    apply rtc_once, step_atom.
  - reflexivity.
Defined.

(** ** What a read depends on and what it leaves alone *)

Lemma getAtomValue_outcome fuel a t u :
  atoms t = atoms u → atomPrimitiveValues t = atomPrimitiveValues u →
  (getAtomValue fuel a t).1 = (getAtomValue fuel a u).1.
Proof.
  revert a t u. induction fuel as [|n IH]; intros a t u Ha Hv; [done|].
  rewrite !getAtomValue_unfold, Ha, Hv.
  destruct (atoms u !! a) as [[brand|read write]|]; try done.
  assert (∀ t1 u1, atoms t1 = atoms u1 →
            atomPrimitiveValues t1 = atomPrimitiveValues u1 →
            (run_read (get n) read t1).1 = (run_read (get n) read u1).1) as Hrun.
  { clear -IH. induction read as [v|b k IHk|e]; intros t1 u1 Ha Hv; simpl; try done.
    unfold bind.
    assert ((get n b t1).1 = (get n b u1).1) as Ho.
    { unfold get. apply IH.
      - by rewrite !track_atoms.
      - destruct (read_frame_track b t1) as (_ & -> & _).
        by destruct (read_frame_track b u1) as (_ & -> & _). }
    destruct (get_frame n b t1) as (Hat & Hvt & _).
    destruct (get_frame n b u1) as (Hau & Hvu & _).
    destruct (get n b t1) as [o t2]. destruct (get n b u1) as [o' u2].
    simpl in *. subst o'. destruct o as [v|e|]; try done.
    apply IHk; congruence. }
  specialize (Hrun (with_computing (Some a) t) (with_computing (Some a) u) Ha Hv).
  destruct (run_read (get n) read (with_computing (Some a) t)).
  by destruct (run_read (get n) read (with_computing (Some a) u)).
Qed.

(** X12. What a read returns depends on the atom table and the value store
    only, not on the dependency graph, the subscriptions, the notification
    log or the atom under computation; the tracked read [get] and the
    snapshot read return the same. *)
Theorem read_depends_on_atoms_and_values fuel a s t :
  atoms t = atoms s → atomPrimitiveValues t = atomPrimitiveValues s →
  (getAtomValue fuel a t).1 = (getAtomValue fuel a s).1
  ∧ (get fuel a t).1 = (getSnapshot fuel a s).1.
Proof.
  intros Ha Hv. split; [by apply getAtomValue_outcome|].
  unfold get, getSnapshot. apply getAtomValue_outcome.
  - by rewrite track_atoms.
  - by destruct (read_frame_track a t) as (_ & -> & _).
Qed.

Lemma read_depends_on_atoms_and_values_witness :
  (get 3 tripledAtom (with_computing (Some countAtom3WithWrite) counter_store)).1
  = (getSnapshot 3 tripledAtom app_store).1.
Proof.
  apply (read_depends_on_atoms_and_values 3 tripledAtom app_store
           (with_computing (Some countAtom3WithWrite) counter_store));
    reflexivity.
Defined.

(** X13. A read, tracked or not, and whatever its outcome, changes neither
    the atom table, the value store nor the subscriptions, and calls no
    callback. *)
Theorem reads_change_only_the_graph fuel a s :
  read_frame s (get fuel a s).2
  ∧ read_frame s (getSnapshot fuel a s).2
  ∧ new_calls s (get fuel a s).2 = []
  ∧ new_calls s (getSnapshot fuel a s).2 = [].
Proof.
  pose proof (get_frame fuel a s) as Hg.
  pose proof (getAtomValue_frame fuel a s) as Hs.
  split_and!; [done | done | |].
  - destruct Hg as (_ & _ & _ & Hl). apply new_calls_app. by rewrite Hl, app_nil_r.
  - destruct Hs as (_ & _ & _ & Hl). apply new_calls_app.
    unfold getSnapshot. by rewrite Hl, app_nil_r.
Qed.

(** ** Writes to a primitive atom *)

Lemma setValue_updater_primitive fuel a brand fn s :
  atoms s !! a = Some (PrimitiveAtom brand) →
  setValue (S fuel) a (Updater fn) s
  = setValue (S fuel) a
      (Plain (fn (default VUndefined (atomPrimitiveValues s !! a)))) s.
Proof.
  intros Ha. unfold setValue, bind, ret. cbv beta.
  by rewrite (getAtomValue_primitive fuel a brand s Ha).
Qed.

(** X14. A plain write to a primitive atom stores the value, which the next
    read of the atom returns, and leaves the values of the other atoms
    alone, whatever the fuel of the propagation.  A write with an updater
    function stores the function applied to the value the atom holds. *)
Theorem primitive_write_then_read a brand s :
  atoms s !! a = Some (PrimitiveAtom brand) →
  (∀ fuel v,
     atomPrimitiveValues (setValue fuel a (Plain v) s).2
     = <[a := v]> (atomPrimitiveValues s)
     ∧ ∀ n, (getAtomValue (S n) a (setValue fuel a (Plain v) s).2).1 = Returned v)
  ∧ (∀ fuel fn,
       atomPrimitiveValues (setValue (S fuel) a (Updater fn) s).2
       = <[a := fn (default VUndefined (atomPrimitiveValues s !! a))]>
           (atomPrimitiveValues s)).
Proof.
  intros Ha.
  assert (∀ fuel v,
     atomPrimitiveValues (setValue fuel a (Plain v) s).2
     = <[a := v]> (atomPrimitiveValues s)
     ∧ ∀ n, (getAtomValue (S n) a (setValue fuel a (Plain v) s).2).1 = Returned v)
    as Hplain.
  { intros fuel v. destruct (setValue_primitive fuel a brand v s Ha) as [Hat Hv].
    split; [done|]. intros n.
    rewrite (getAtomValue_primitive n a brand) by by rewrite Hat.
    simpl. by rewrite Hv, lookup_insert_eq. }
  split; [done|]. intros fuel fn.
  rewrite (setValue_updater_primitive fuel a brand fn s Ha). apply Hplain.
Qed.

Lemma primitive_write_then_read_witness :
  atomPrimitiveValues
    (setValue 3 countAtom (Updater (times 2))
       (setValue 3 countAtom (Plain (VNum 4)) counter_store).2).2 !! countAtom
  = Some (VNum 8).
Proof.
  pose proof (primitive_write_then_read countAtom (VNum 0) counter_store eq_refl)
    as [H1 _].
  pose proof (primitive_write_then_read countAtom (VNum 0)
                (setValue 3 countAtom (Plain (VNum 4)) counter_store).2 eq_refl)
    as [_ H2].
  rewrite H2, lookup_insert_eq. destruct (H1 3%nat (VNum 4)) as [-> _].
  by rewrite lookup_insert_eq.
Defined.

(** ** Writes through a write function that updates a primitive atom *)

Lemma getAtomValue_mapped_primitive n d source brand f write s :
  atoms s !! source = Some (PrimitiveAtom brand) →
  atoms s !! d = Some (DerivedAtom (mapped source f) write) →
  (getAtomValue (S (S n)) d s).1
  = Returned (f (default VUndefined (atomPrimitiveValues s !! source))).
Proof.
  intros Hsrc Hd. rewrite (getAtomValue_mapped _ d source f write) by done.
  unfold get. rewrite (getAtomValue_primitive n source brand).
  - destruct (read_frame_track source (with_computing (Some d) s))
      as (_ & Hv & _).
    cbn [fst outcome_map]. by rewrite Hv.
  - by rewrite track_atoms.
Qed.

(** X15. A write of [v] to a derived atom whose write function is
    [set(target, transform(get(target), v))], with [target] primitive,
    stores [transform old v] in [target], where [old] is the value [target]
    held; a derived atom that maps [target] through [f] then reads
    [f (transform old v)].  Called from outside, the write function's [get]
    records no edge: the dependency graph is as before. *)
Theorem write_function_updates_its_target c read target transform brand v fuel s :
  atoms s !! c = Some (DerivedAtom read (Some (through target transform))) →
  atoms s !! target = Some (PrimitiveAtom brand) →
  let old := default VUndefined (atomPrimitiveValues s !! target) in
  let s' := (setValue (S fuel) c (Plain v) s).2 in
  atomPrimitiveValues s' = <[target := transform old v]> (atomPrimitiveValues s)
  ∧ (∀ d f write n,
       atoms s !! d = Some (DerivedAtom (mapped target f) write) →
       (getAtomValue (S (S n)) d s').1 = Returned (f (transform old v)))
  ∧ (currentlyComputingAtom s = None → dependencies s' = dependencies s).
Proof.
  intros Hc Htarget old s'.
  assert (s' = (updateAtom (S fuel) target (transform old v) (track target s)).2)
    as Hs'.
  { unfold s'. rewrite (setValue_handler _ c read (through target transform)) by done.
    unfold through. simpl. unfold bind at 1. unfold get.
    rewrite (getAtomValue_primitive fuel target brand) by by rewrite track_atoms.
    destruct (read_frame_track target s) as (_ & -> & _). fold old.
    unfold bind, ret.
    by destruct (updateAtom (S fuel) target (transform old v) (track target s))
      as [[[]|e|] s1]. }
  assert (atomPrimitiveValues s'
          = <[target := transform old v]> (atomPrimitiveValues s)) as Hv.
  { rewrite Hs', updateAtom_values, track_atoms, Htarget. simpl.
    by destruct (read_frame_track target s) as (_ & -> & _). }
  assert (atoms s' = atoms s) as Hat.
  { rewrite Hs'.
    destruct (updateAtom_write_frame (S fuel) target (transform old v)
                (track target s)) as (-> & _).
    apply track_atoms. }
  split_and!.
  - done.
  - intros d f write n Hd.
    rewrite (getAtomValue_mapped_primitive n d target brand f write)
      by by rewrite Hat.
    by rewrite Hv, lookup_insert_eq.
  - intros Hnone. rewrite Hs'.
    destruct (updateAtom_write_frame (S fuel) target (transform old v)
                (track target s)) as (_ & _ & _ & ->).
    unfold track. by rewrite Hnone.
Qed.

(** [Counter3] of [App.tsx]: with [countAtom] at 4, [setCount(5)] on
    [countAtom3WithWrite] stores 9, and [doubledAtom] reads 18. *)
Lemma write_function_updates_its_target_witness :
  atomPrimitiveValues
    (setValue 3 countAtom3WithWrite (Plain (VNum 5))
       (setValue 3 countAtom (Plain (VNum 4)) counter_store).2).2 !! countAtom
  = Some (VNum 9)
  ∧ (getAtomValue 3 doubledAtom
       (setValue 3 countAtom3WithWrite (Plain (VNum 5))
          (setValue 3 countAtom (Plain (VNum 4)) counter_store).2).2).1
    = Returned (VNum 18).
Proof.
  pose proof (write_function_updates_its_target countAtom3WithWrite
                (mapped countAtom (times 2)) countAtom plus (VNum 0) (VNum 5) 2
                (setValue 3 countAtom (Plain (VNum 4)) counter_store).2
                eq_refl eq_refl) as (Hv & Hd & _).
  split.
  - rewrite Hv. by rewrite lookup_insert_eq.
  - apply (Hd doubledAtom (times 2) None 1%nat). reflexivity.
Defined.

(** ** Construction *)

(** X16. The constructor returns a reference that was in no entry of the
    atom table and binds it to the new atom, leaving every other entry as
    it was.  A primitive atom gets its value stored at once, so that a read
    returns it; the write argument is dropped.  A derived atom gets no
    entry in the value store.  Nothing else in the store changes. *)
Theorem atom_constructs_a_fresh_atom configOrRead write s :
  atoms s !! (atom configOrRead write s).1 = None
  ∧ atoms (atom configOrRead write s).2 !! (atom configOrRead write s).1
    = Some (match configOrRead with
            | inl config => PrimitiveAtom config
            | inr read => DerivedAtom read write
            end)
  ∧ (∀ a, a ≠ (atom configOrRead write s).1 →
          atoms (atom configOrRead write s).2 !! a = atoms s !! a)
  ∧ atomPrimitiveValues (atom configOrRead write s).2
    = match configOrRead with
      | inl config => <[(atom configOrRead write s).1 := config]> (atomPrimitiveValues s)
      | inr _ => atomPrimitiveValues s
      end
  ∧ match configOrRead with
    | inl config =>
        ∀ n, getAtomValue (S n) (atom configOrRead write s).1
                          (atom configOrRead write s).2
             = (Returned config, (atom configOrRead write s).2)
    | inr _ => True
    end
  ∧ currentlyComputingAtom (atom configOrRead write s).2 = currentlyComputingAtom s
  ∧ subscriptions (atom configOrRead write s).2 = subscriptions s
  ∧ dependencies (atom configOrRead write s).2 = dependencies s
  ∧ notified (atom configOrRead write s).2 = notified s.
Proof.
  assert (atoms s !! fresh (dom (atoms s)) = None) as Hfresh.
  { apply not_elem_of_dom, is_fresh. }
  unfold atom. destruct configOrRead as [config|read]; simpl.
  - split_and!; try done.
    + by rewrite lookup_insert_eq.
    + intros a Ha. by rewrite lookup_insert_ne.
    + intros n. by rewrite !lookup_insert_eq.
  - split_and!; try done.
    + by rewrite lookup_insert_eq.
    + intros a Ha. by rewrite lookup_insert_ne.
Qed.

Lemma atom_constructs_a_fresh_atom_witness :
  atoms (atom (inl (VStr "x")) None app_store).2 !! countAtom
  = atoms app_store !! countAtom.
Proof.
  apply (atom_constructs_a_fresh_atom (inl (VStr "x")) None app_store).
  intros H. discriminate H.
Defined.

(** ** Dependency discovery *)

Lemma run_read_records_reads fuel d read s b :
  currentlyComputingAtom s = Some d →
  b ∈ direct_reads (get fuel) read s →
  has_edge (run_read (get fuel) read s).2 b d.
Proof.
  revert s. induction read as [v|a k IH|e]; intros s Hd Hb; simpl in *.
  - by apply elem_of_nil in Hb.
  - unfold bind.
    pose proof (get_computing fuel a s) as Hc.
    assert (has_edge (get fuel a s).2 a d) as Ha.
    { apply getAtomValue_edges_grow. by apply has_edge_track_new. }
    destruct (get fuel a s) as [[v|e|] s1]; simpl in *.
    + apply elem_of_cons in Hb as [->|Hb].
      * assert (edges_grow s1 (run_read (get fuel) (k v) s1).2) as Hgrow;
          [|by apply Hgrow].
        apply (run_read_preserves edges_grow). intros c.
        apply (get_preserves edges_grow edges_grow_track edges_grow_computing).
      * apply IH; [congruence | done].
    + by apply list_elem_of_singleton in Hb as ->.
    + by apply list_elem_of_singleton in Hb as ->.
  - by apply elem_of_nil in Hb.
Qed.

Lemma direct_reads_inputs fuel read t u :
  atoms t = atoms u → atomPrimitiveValues t = atomPrimitiveValues u →
  direct_reads (get fuel) read t = direct_reads (get fuel) read u.
Proof.
  revert t u. induction read as [v|a k IH|e]; intros t u Ha Hv; simpl; try done.
  f_equal.
  assert ((get fuel a t).1 = (get fuel a u).1) as Ho.
  { unfold get. apply getAtomValue_outcome.
    - by rewrite !track_atoms.
    - destruct (read_frame_track a t) as (_ & -> & _).
      by destruct (read_frame_track a u) as (_ & -> & _). }
  destruct (get_frame fuel a t) as (Hat & Hvt & _).
  destruct (get_frame fuel a u) as (Hau & Hvu & _).
  destruct (get fuel a t) as [o t1]. destruct (get fuel a u) as [o' u1].
  simpl in *. subst o'. destruct o as [v|e|]; try done.
  apply IH; congruence.
Qed.

(** X17. Every atom that the read function of a derived atom [d] gets
    while [d] is read is afterwards recorded with [d] as a dependent, also
    when the read ends with an exception; recording the same read again
    changes nothing. *)
Theorem read_records_every_atom_it_gets fuel d read write s b :
  atoms s !! d = Some (DerivedAtom read write) →
  b ∈ direct_reads (get fuel) read (with_computing (Some d) s) →
  has_edge (getAtomValue (S fuel) d s).2 b d
  ∧ has_edge (get (S fuel) d s).2 b d
  ∧ ∀ t, track b (track b t) = track b t.
Proof.
  intros Hd Hb.
  assert (∀ t, atoms t !! d = Some (DerivedAtom read write) →
            b ∈ direct_reads (get fuel) read (with_computing (Some d) t) →
            has_edge (getAtomValue (S fuel) d t).2 b d) as Hread.
  { intros t Ht Hin. rewrite getAtomValue_unfold, Ht.
    pose proof (run_read_records_reads fuel d read (with_computing (Some d) t) b
                  eq_refl Hin) as He.
    by destruct (run_read (get fuel) read (with_computing (Some d) t)). }
  split_and!.
  - by apply Hread.
  - unfold get. apply Hread; [by rewrite track_atoms|].
    rewrite (direct_reads_inputs fuel read _ (with_computing (Some d) s)); [done| |].
    + simpl. apply track_atoms.
    + simpl. by destruct (read_frame_track d s) as (_ & -> & _).
  - intros t. apply track_recorded. intros c Hc.
    apply has_edge_track_new. by rewrite track_computing in Hc.
Qed.

(** [joinedAtom] reads [leftPath] and [rightPath]; both edges are there
    after its first read. *)
Lemma read_records_every_atom_it_gets_witness :
  has_edge (getAtomValue 3 joinedAtom
              (atom (inr (RGet leftPath (λ x,
                            RGet rightPath (λ y, RReturn (plus x y))))) None
                 (atom (inr (mapped baseAtom (times 3))) None
                    (atom (inr (mapped baseAtom (times 2))) None
                       (atom (inl (VNum 0)) None empty_store).2).2).2).2).2
           rightPath joinedAtom.
Proof.
  apply (read_records_every_atom_it_gets 2 joinedAtom
           (RGet leftPath (λ x, RGet rightPath (λ y, RReturn (plus x y)))) None).
  - reflexivity.
  - vm_compute. apply list_elem_of_further, list_elem_of_here.
Defined.

(** ** Propagation *)

Lemma updateReadonlyDerivedAtom_fires_first fuel d s :
  ∃ l, notified (updateReadonlyDerivedAtom (S fuel) d s).2
       = notified s ++ calls_of s d ++ l.
Proof.
  simpl. unfold bind, notify. simpl.
  destruct (forDependents_preserves only_notified d (updateReadonlyDerivedAtom fuel)
              (updateReadonlyDerivedAtom_only_notified fuel)
              (with_notified (notified s ++ calls_of s d) s))
    as (_&_&_&_&_&[l Hl]).
  exists l. by rewrite Hl, (assoc_L (++)).
Qed.

Lemma forEach_propagation_calls s (f : atom_id -> M unit)
    (calls : atom_id -> list (atom_id * callback)) :
  ∀ ds t,
    dependencies t = dependencies s → subscriptions t = subscriptions s →
    (∀ y u, y ∈ ds → dependencies u = dependencies s →
            subscriptions u = subscriptions s →
            f y u = (Returned tt, with_notified (notified u ++ calls y) u)) →
    forEach f ds t
    = (Returned tt, with_notified (notified t ++ flat_map calls ds) t).
Proof.
  induction ds as [|y ds IH]; intros t Hd Hs Hf; simpl.
  - unfold ret. destruct t. unfold with_notified. simpl. by rewrite app_nil_r.
  - unfold bind. rewrite (Hf y t (list_elem_of_here _ _) Hd Hs).
    rewrite IH; [|done|done|].
    + simpl. unfold with_notified. simpl. by rewrite (assoc_L (++)).
    + intros z u Hz. apply Hf. by apply list_elem_of_further.
Qed.

(** On a graph with ranks and with enough fuel, the code makes exactly the
    calls of [propagation_calls], and returns. *)
Lemma updateReadonlyDerivedAtom_propagation_calls (rank : atom_id -> nat) s :
  (∀ x y, has_edge s x y → (rank y < rank x)%nat) →
  ∀ fuel d t, (rank d < fuel)%nat →
    dependencies t = dependencies s → subscriptions t = subscriptions s →
    updateReadonlyDerivedAtom fuel d t
    = (Returned tt, with_notified (notified t ++ propagation_calls fuel s d) t).
Proof.
  intros Hrank. induction fuel as [|n IH]; intros d t Hdn Hd Hs; [lia|].
  simpl. unfold bind, notify, forDependents. simpl. rewrite Hd.
  rewrite (calls_of_same s t) by done.
  destruct (dependencies s !! d) as [ds|] eqn:Hds; simpl.
  - rewrite (forEach_propagation_calls s _ (propagation_calls n s)); [|done|done|].
    + simpl. unfold with_notified. simpl. by rewrite (assoc_L (++)).
    + intros y u Hy Hu Hsu. apply IH; [|done|done].
      assert (rank y < rank d)%nat; [|lia]. apply Hrank. by exists ds.
  - unfold ret. by rewrite app_nil_r.
Qed.

(** C5. Propagation through a derived atom first calls the callbacks
    registered for it, for every fuel that lets it start.  On a graph with
    ranks and with enough fuel it returns after making exactly the calls of
    recompute-and-notify: the callbacks of the atom, then for each
    dependent in turn its callbacks and those below it.  It changes nothing
    but the notification log: no value is stored, no edge recorded, the
    result does not depend on the atom table, so no read function is run,
    and a read after the propagation has the outcome it had before it: the
    value is computed by that read.  A value is stored only by a write
    that targets a primitive atom, under that atom's key. *)
Theorem propagation_notifies_without_recomputing fuel d s :
  (∃ l, notified (updateReadonlyDerivedAtom (S fuel) d s).2
        = notified s ++ calls_of s d ++ l)
  ∧ (∀ rank : atom_id -> nat,
       (∀ x y, has_edge s x y → (rank y < rank x)%nat) → (rank d < fuel)%nat →
       updateReadonlyDerivedAtom fuel d s
       = (Returned tt,
          with_notified (notified s ++ propagation_calls fuel s d) s))
  ∧ updateReadonlyDerivedAtom (S fuel) d s
    = (notify d >> forDependents d (updateReadonlyDerivedAtom fuel)) s
  ∧ only_notified s (updateReadonlyDerivedAtom fuel d s).2
  ∧ heap_blind (updateReadonlyDerivedAtom fuel d)
  ∧ (∀ n x, (getAtomValue n x (updateReadonlyDerivedAtom fuel d s).2).1
            = (getAtomValue n x s).1)
  ∧ ∀ a v, atomPrimitiveValues (updateAtom fuel a v s).2 =
           if is_primitive (atoms s !! a)
           then <[a := v]> (atomPrimitiveValues s) else atomPrimitiveValues s.
Proof.
  split_and!.
  - apply updateReadonlyDerivedAtom_fires_first.
  - intros rank Hrank Hd.
    by apply (updateReadonlyDerivedAtom_propagation_calls rank s Hrank).
  - reflexivity.
  - apply updateReadonlyDerivedAtom_only_notified.
  - apply updateReadonlyDerivedAtom_heap_blind.
  - intros n x.
    destruct (updateReadonlyDerivedAtom_only_notified fuel d s) as (Ha & Hv & _).
    by apply getAtomValue_outcome.
  - intros a v. apply updateAtom_values.
Qed.

(** Propagation from [doubledAtom]: its subscriber is called, then the
    subscriber of its dependent [tripledAtom]. *)
Lemma propagation_notifies_without_recomputing_witness :
  updateReadonlyDerivedAtom 2 doubledAtom views_store
  = (Returned tt,
     with_notified [(doubledAtom, 5%positive); (tripledAtom, 9%positive)]
       views_store).
Proof.
  destruct (propagation_notifies_without_recomputing 2 doubledAtom views_store)
    as (_ & H & _).
  rewrite (H app_rank).
  - reflexivity.
  - exact app_rendered_rank.
  - vm_compute. lia.
Defined.

(** ** The setter on a derived atom *)

(** C9. Called on a derived atom [t], the setter of write functions is the
    propagation from [t] and nothing else.  The value is dropped and not
    stored, and the outcome is the same for every atom table in which [t]
    is derived, so [t]'s own write function plays no part.  The callbacks
    registered for [t] are called first, for every fuel that lets the
    propagation start; on a graph with ranks and with enough fuel the
    setter returns after making exactly the calls of recompute-and-notify
    from [t]: the callbacks of [t], then for each dependent in turn its
    callbacks and those below it.  The store changes in its notification
    log only. *)
Theorem set_on_derived_atom_only_notifies fuel t v s :
  is_derived (atoms s !! t) = true →
  updateAtom fuel t v s = updateReadonlyDerivedAtom fuel t s
  ∧ (∀ g k, run_write g (updateAtom fuel) (WSet t v k) s
            = (updateReadonlyDerivedAtom fuel t >> run_write g (updateAtom fuel) k) s)
  ∧ atomPrimitiveValues (updateAtom fuel t v s).2 = atomPrimitiveValues s
  ∧ only_notified s (updateAtom fuel t v s).2
  ∧ (∀ h, is_derived (h !! t) = true →
          updateAtom fuel t v (with_atoms h s)
          = let '(o, s') := updateReadonlyDerivedAtom fuel t s in
            (o, with_atoms h s'))
  ∧ (∃ l, notified (updateAtom (S fuel) t v s).2
          = notified s ++ calls_of s t ++ l)
  ∧ (∀ rank : atom_id -> nat,
       (∀ x y, has_edge s x y → (rank y < rank x)%nat) → (rank t < fuel)%nat →
       updateAtom fuel t v s
       = (Returned tt,
          with_notified (notified s ++ propagation_calls fuel s t) s)).
Proof.
  intros Ht. pose proof (updateAtom_derived fuel t v s Ht) as Heq.
  split_and!.
  - done.
  - intros g k. simpl. unfold bind. by rewrite Heq.
  - rewrite Heq. by destruct (updateReadonlyDerivedAtom_only_notified fuel t s) as (_&->&_).
  - rewrite Heq. apply updateReadonlyDerivedAtom_only_notified.
  - intros h Hh. rewrite updateAtom_derived by done.
    apply updateReadonlyDerivedAtom_heap_blind.
  - rewrite (updateAtom_derived (S fuel) t v s Ht).
    apply updateReadonlyDerivedAtom_fires_first.
  - intros rank Hrank Hfuel. rewrite Heq.
    by apply (updateReadonlyDerivedAtom_propagation_calls rank s Hrank).
Qed.

Lemma handler_rendered_rank x y :
  has_edge handler_rendered x y → (handler_rank y < handler_rank x)%nat.
Proof.
  intros (ds & Hds & Hy).
  change (dependencies handler_rendered)
    with ({[ writableAtom := [viaWritable]; sourceAtom := [writableAtom] ]}
          : gmap positive (list positive)) in Hds.
  destruct (decide (x = writableAtom)) as [->|Hx1].
  - rewrite lookup_insert_eq in Hds. injection Hds as <-.
    apply list_elem_of_singleton in Hy as ->. vm_compute. lia.
  - rewrite lookup_insert_ne in Hds by done.
    destruct (decide (x = sourceAtom)) as [->|Hx2].
    + rewrite lookup_singleton_eq in Hds. injection Hds as <-.
      apply list_elem_of_singleton in Hy as ->. vm_compute. lia.
    + by rewrite lookup_singleton_ne in Hds.
Qed.

(** [writableAtom] has a write function that sets [sourceAtom], a
    subscriber and the dependent [viaWritable].  [set(writableAtom, 9)]
    calls the subscriber of [writableAtom], then the subscriber of
    [viaWritable], and leaves [sourceAtom] at 0. *)
Lemma set_on_derived_atom_only_notifies_witness :
  updateAtom 3 writableAtom (VNum 9) handler_rendered
  = (Returned tt,
     with_notified [(writableAtom, 7%positive); (viaWritable, 8%positive)]
       handler_rendered)
  ∧ atomPrimitiveValues (updateAtom 3 writableAtom (VNum 9) handler_rendered).2
      !! sourceAtom
    = Some (VNum 0).
Proof.
  destruct (set_on_derived_atom_only_notifies 3 writableAtom (VNum 9)
              handler_rendered eq_refl) as (_ & _ & Hv & _ & _ & _ & H).
  split.
  - rewrite (H handler_rank).
    + reflexivity.
    + exact handler_rendered_rank.
    + vm_compute. lia.
  - rewrite Hv. reflexivity.
Defined.
